(** * A shallow embedding of minitorch's scalar autodifferentiation core

    Sources embedded here:
    - [minitorch/autodiff.py]: [central_difference], [topological_sort],
      [backpropagate], [Context];
    - [minitorch/scalar_functions.py]: [wrap_tuple], [ScalarFunction] with
      [_forward], [_backward], [apply], and the primitives [Add], [Log],
      [Mul], [Inv], [Neg], [Sigmoid], [ReLU], [Exp], [LT], [EQ].

    Python's [float] is IEEE 754 binary64 with round-to-nearest-even; it is
    embedded as Rocq's primitive [float], which has the same values and the
    same arithmetic.  The only departure is division, where Python raises
    [ZeroDivisionError] instead of returning an infinity or a NaN.

    Python objects are shared by reference.  A [Scalar] never changes after
    its construction except for its [derivative] attribute, so the
    immutable part of an object is a value of the inductive type [Scalar]
    and the one mutable attribute lives in a store keyed by [unique_id]:
    every occurrence of the same object reads and writes the same entry.

    The file has four parts: the embedding of the sources, the vocabulary
    the properties are stated in, the concrete inputs of the examples, and
    the properties with their proofs. *)

From Stdlib Require Import Floats ZArith.
From stdpp Require Import gmap list.

Set Default Proof Using "Type".
Set Warnings "-register-all,-clear-no-such-hyp".

(** ** Exceptions and results *)

Inductive exn : Type :=
  | AssertionError
  | KeyError
  | IndexError
  | TypeError
  | ValueError
  | ZeroDivisionError
  | OverflowError.

Inductive result (A : Type) : Type :=
  | Ok (a : A)
  | Raise (e : exn).
Arguments Ok {A} a.
Arguments Raise {A} e.

#[global] Instance result_bind : MBind result := λ A B k m,
  match m with
  | Ok a => k a
  | Raise e => Raise e
  end.

#[global] Instance result_ret : MRet result := λ A a, Ok a.

(** ** Python float arithmetic *)

Module Py.

Definition zero : float := 0%float.
Definition one : float := 1%float.
Definition two : float := 2%float.

(** [a / b] on floats: raises when the divisor compares equal to zero. *)
Definition truediv (a b : float) : result float :=
  if PrimFloat.eqb b zero then Raise ZeroDivisionError
  else Ok (PrimFloat.div a b).

(** The builtin [max(x, y)]: the first argument unless the second is
    strictly greater. *)
Definition max (x y : float) : float :=
  if PrimFloat.ltb x y then y else x.

(** [l[i]] addressing with an [int] index: negative indices count from
    the end, anything outside raises [IndexError]. *)
Definition index {A : Type} (l : list A) (i : Z) : result nat :=
  let n := Z.of_nat (length l) in
  if (0 <=? i)%Z && (i <? n)%Z then Ok (Z.to_nat i)
  else if (i <? 0)%Z && (0 <=? i + n)%Z then Ok (Z.to_nat (i + n))
  else Raise IndexError.

End Py.

(** ** [autodiff.py]: central difference *)

(** [central_difference(f, *vals, arg, epsilon)].  [f] may raise. *)
Definition central_difference (f : list float → result float)
    (vals : list float) (arg : Z) (epsilon : float) : result float :=
  let vals_list := vals in
  i ← Py.index vals_list arg ;
  let vals_plus :=
    alter (fun x => PrimFloat.add x epsilon) i vals_list in
  j ← Py.index vals_list arg ;
  let vals_minus :=
    alter (fun x => PrimFloat.sub x epsilon) j vals_list in
  fp ← f vals_plus ;
  fm ← f vals_minus ;
  Py.truediv (PrimFloat.sub fp fm) (PrimFloat.mul Py.two epsilon).

(** ** [autodiff.py]: Context *)

Record Context : Type := mkContext {
  no_grad : bool;
  saved_values : list float
}.

Definition save_for_backward (self : Context) (values : list float) : Context :=
  if no_grad self then self
  else {| no_grad := no_grad self; saved_values := values |}.

Definition saved_tensors (self : Context) : list float := saved_values self.

(** ** [scalar_functions.py]: the function wrapper *)

(** What a [forward] may hand back: the float it promises, or an object
    of another shape, which [apply] rejects. *)
Inductive pyobj : Type :=
  | PyFloat (x : float)
  | PyTuple (xs : list float)
  | PyNone.

Definition isinstance_float (c : pyobj) : bool :=
  match c with PyFloat _ => true | _ => false end.

(** What a [backward] hands back: one float, or a tuple of floats. *)
Inductive grads : Type :=
  | Single (x : float)
  | Tuple (xs : list float).

Definition wrap_tuple (x : grads) : list float :=
  match x with
  | Tuple xs => xs
  | Single v => [v]
  end.

Definition unwrap_tuple (x : list float) : grads :=
  match x with
  | [v] => Single v
  | _ => Tuple x
  end.

(** A scalar function is a pair of static methods.  [forward] receives the
    context object and may write to it, so it returns the context along
    with its result; [backward] reads it. *)
Record ScalarFunction : Type := mkScalarFunction {
  forward : Context → list float → result (pyobj * Context);
  backward : Context → float → result grads
}.

Definition _backward (cls : ScalarFunction) (ctx : Context) (d_out : float)
    : result (list float) :=
  g ← backward cls ctx d_out ; Ok (wrap_tuple g).

Definition _forward (cls : ScalarFunction) (ctx : Context) (inps : list float)
    : result (pyobj * Context) :=
  forward cls ctx inps.

(** ** [scalar_functions.py]: the primitives *)

(** Calling a static method with the wrong number of positional arguments
    raises [TypeError]; unpacking [saved_values] into the wrong number of
    names raises [ValueError]. *)

Definition Add : ScalarFunction := {|
  forward ctx inps :=
    match inps with
    | [a; b] => Ok (PyFloat (PrimFloat.add a b), ctx)
    | _ => Raise TypeError
    end;
  backward ctx d_output := Ok (Tuple [d_output; d_output])
|}.

Definition Mul : ScalarFunction := {|
  forward ctx inps :=
    match inps with
    | [a; b] =>
        let ctx := save_for_backward ctx [a; b] in
        Ok (PyFloat (PrimFloat.mul a b), ctx)
    | _ => Raise TypeError
    end;
  backward ctx d_output :=
    match saved_values ctx with
    | [a; b] => Ok (Tuple [PrimFloat.mul b d_output; PrimFloat.mul a d_output])
    | _ => Raise ValueError
    end
|}.

Definition Inv : ScalarFunction := {|
  forward ctx inps :=
    match inps with
    | [a] =>
        let ctx := save_for_backward ctx [a] in
        r ← Py.truediv Py.one a ;
        Ok (PyFloat r, ctx)
    | _ => Raise TypeError
    end;
  backward ctx d_output :=
    match saved_values ctx with
    | [a] =>
        q ← Py.truediv (PrimFloat.opp Py.one) (PrimFloat.mul a a) ;
        Ok (Tuple [PrimFloat.mul q d_output])
    | _ => Raise ValueError
    end
|}.

Definition Neg : ScalarFunction := {|
  forward ctx inps :=
    match inps with
    | [a] => Ok (PyFloat (PrimFloat.opp a), ctx)
    | _ => Raise TypeError
    end;
  backward ctx d_output := Ok (Single (PrimFloat.opp d_output))
|}.

Definition ReLU : ScalarFunction := {|
  forward ctx inps :=
    match inps with
    | [a] =>
        let ctx := save_for_backward ctx [a] in
        Ok (PyFloat (Py.max Py.zero a), ctx)
    | _ => Raise TypeError
    end;
  backward ctx d_output :=
    match saved_values ctx with
    | [a] => Ok (Single (if PrimFloat.ltb Py.zero a then d_output else Py.zero))
    | _ => Raise ValueError
    end
|}.

Definition LT : ScalarFunction := {|
  forward ctx inps :=
    match inps with
    | [a; b] => Ok (PyFloat (if PrimFloat.ltb a b then Py.one else Py.zero), ctx)
    | _ => Raise TypeError
    end;
  backward ctx d_output := Ok (Tuple [Py.zero; Py.zero])
|}.

Definition EQ : ScalarFunction := {|
  forward ctx inps :=
    match inps with
    | [a; b] => Ok (PyFloat (if PrimFloat.eqb a b then Py.one else Py.zero), ctx)
    | _ => Raise TypeError
    end;
  backward ctx d_output := Ok (Tuple [Py.zero; Py.zero])
|}.

(** [Log], [Sigmoid] and [Exp] call into [operators.py], which wraps the
    [math] module and is not part of the sources at hand: its three entry
    points are parameters.  Each may raise. *)
Section Operators.

Variable operators_log : float → result float.
Variable operators_log_back : float → float → result float.
Variable operators_exp : float → result float.

Definition Log : ScalarFunction := {|
  forward ctx inps :=
    match inps with
    | [a] =>
        let ctx := save_for_backward ctx [a] in
        r ← operators_log a ;
        Ok (PyFloat r, ctx)
    | _ => Raise TypeError
    end;
  backward ctx d_output :=
    match saved_values ctx with
    | [a] => r ← operators_log_back a d_output ; Ok (Single r)
    | _ => Raise ValueError
    end
|}.

Definition Sigmoid : ScalarFunction := {|
  forward ctx inps :=
    match inps with
    | [a] =>
        e ← operators_exp (PrimFloat.opp a) ;
        sigmoid_val ← Py.truediv Py.one (PrimFloat.add Py.one e) ;
        let ctx := save_for_backward ctx [sigmoid_val] in
        Ok (PyFloat sigmoid_val, ctx)
    | _ => Raise TypeError
    end;
  backward ctx d_output :=
    match saved_values ctx with
    | [sigmoid_val] =>
        Ok (Single (PrimFloat.mul (PrimFloat.mul d_output sigmoid_val)
                                  (PrimFloat.sub Py.one sigmoid_val)))
    | _ => Raise ValueError
    end
|}.

Definition Exp : ScalarFunction := {|
  forward ctx inps :=
    match inps with
    | [a] =>
        exp_val ← operators_exp a ;
        let ctx := save_for_backward ctx [exp_val] in
        Ok (PyFloat exp_val, ctx)
    | _ => Raise TypeError
    end;
  backward ctx d_output :=
    match saved_values ctx with
    | [exp_val] => Ok (Single (PrimFloat.mul exp_val d_output))
    | _ => Raise ValueError
    end
|}.

End Operators.

(** ** The node of the graph *)

(** Modelled from the spec: the [Scalar] class and its [ScalarHistory]
    ([minitorch/scalar.py]) are not among the sources.  Section 3 of the
    specification gives a node a [unique_id], a float value, an optional
    history and a derivative; a history records the operation, the context
    and the ordered inputs.  A bare input carries a history with no recorded
    operation and no parents, which is what [apply] gives a constant it
    wraps.  The [derivative] attribute is mutable and is kept in the
    store (see [accumulate_derivative]). *)
Inductive Scalar : Type := MkScalar {
  unique_id : nat;
  data : float;
  history : option ScalarHistory
}
with ScalarHistory : Type := MkHistory {
  last_fn : option ScalarFunction;
  ctx : option Context;
  inputs : list Scalar
}.

(** Modelled from the spec: the default history of [Scalar(v)], a bare
    input with no recorded operation ([ScalarHistory()] is missing with
    [scalar.py]). *)
Definition bare_history : ScalarHistory :=
  {| last_fn := None; ctx := None; inputs := [] |}.

(** Modelled from the spec: the constructor [Scalar(v, back)] (missing with
    [scalar.py]).  The process-wide counter is threaded as state: the new
    node takes the current count as its [unique_id] and the count goes up
    by one. *)
Definition Scalar_init (v : float) (back : option ScalarHistory)
    (variable_count : nat) : Scalar * nat :=
  ({| unique_id := variable_count; data := v; history := back |},
   S variable_count).

(** Modelled from the spec: [is_constant] (missing with [scalar.py]) holds
    iff the node has no history at all. *)
Definition is_constant (self : Scalar) : bool :=
  match history self with
  | None => true
  | Some _ => false
  end.

(** Modelled from the spec: [is_leaf] (missing with [scalar.py]) holds iff
    the history is absent, or present with an empty parent list. *)
Definition is_leaf (self : Scalar) : bool :=
  match history self with
  | None => true
  | Some h => match inputs h with [] => true | _ :: _ => false end
  end.

(** Modelled from the spec: [parents] (missing with [scalar.py]) are exactly
    [history.inputs]. *)
Definition parents (self : Scalar) : list Scalar :=
  match history self with
  | None => []
  | Some h => inputs h
  end.

(** Modelled from the spec: [chain_rule] (missing with [scalar.py]) invokes
    the paired operation's [_backward] on the history's context and pairs
    the local derivatives with the inputs, position by position.  A history
    that records no operation or no context has nothing to invoke. *)
Definition chain_rule (self : Scalar) (d_output : float)
    : result (list (Scalar * float)) :=
  match history self with
  | None => Raise AssertionError
  | Some h =>
      match last_fn h, ctx h with
      | Some fn, Some c =>
          x ← _backward fn c d_output ;
          Ok (zip (inputs h) x)
      | _, _ => Raise AssertionError
      end
  end.

(** Modelled from the spec: [accumulate_derivative] (missing with
    [scalar.py]) sets the node's derivative, or adds to it when one has
    been accumulated before.  The store maps a [unique_id] to the
    [derivative] attribute of that object; no entry means unset. *)
Definition accumulate_derivative (self : Scalar) (x : float)
    (store : gmap nat float) : gmap nat float :=
  match store !! unique_id self with
  | None => <[unique_id self := x]> store
  | Some d => <[unique_id self := PrimFloat.add d x]> store
  end.

(** ** [scalar_functions.py]: apply *)

(** An argument of [apply]: a [Scalar], or a bare float. *)
Inductive ScalarLike : Type :=
  | IsScalar (s : Scalar)
  | IsFloat (v : float).

(** One turn of the loop over [vals]: the state is [raw_vals], [scalars]
    and the counter. *)
Definition apply_wrap (st : list float * list Scalar * nat) (v : ScalarLike)
    : list float * list Scalar * nat :=
  let '(raw_vals, scalars, count) := st in
  match v with
  | IsScalar s => (raw_vals ++ [data s], scalars ++ [s], count)
  | IsFloat x =>
      let '(s, count) := Scalar_init x (Some bare_history) count in
      (raw_vals ++ [x], scalars ++ [s], count)
  end.

(** [cls.apply] on the argument list [vals].  The counter is the state; an exception leaves it
    where it was when raised. *)
Definition apply (cls : ScalarFunction) (vals : list ScalarLike)
    (variable_count : nat) : result Scalar * nat :=
  let '(raw_vals, scalars, count) :=
    fold_left apply_wrap vals ([], [], variable_count) in
  let ctx := mkContext false [] in
  match _forward cls ctx raw_vals with
  | Raise e => (Raise e, count)
  | Ok (c, ctx) =>
      if isinstance_float c then
        match c with
        | PyFloat x =>
            let back := MkHistory (Some cls) (Some ctx) scalars in
            let '(s, count) := Scalar_init x (Some back) count in
            (Ok s, count)
        | _ => (Raise AssertionError, count)
        end
      else (Raise AssertionError, count)
  end.

(** ** [autodiff.py]: topological sort *)

(** The inner function [visit]; [visited] and [sorted_variables] are the
    two variables of the enclosing scope it updates. *)
Fixpoint visit (var : Scalar) (st : gset nat * list Scalar)
    : gset nat * list Scalar :=
  let '(visited, sorted_variables) := st in
  if bool_decide (unique_id var ∈ visited) || is_constant var then st
  else
    let st := ({[unique_id var]} ∪ visited, sorted_variables) in
    let st :=
      match history var with
      | Some h => fold_left (fun st parent => visit parent st) (inputs h) st
      | None => st
      end in
    (st.1, st.2 ++ [var]).

Definition topological_sort (variable : Scalar) : list Scalar :=
  (visit variable (∅, [])).2.

(** ** [autodiff.py]: backpropagation *)

(** The body of the inner loop over [var.chain_rule(deriv)]. *)
Definition add_parent_deriv (derivatives : gmap nat float)
    (pd : Scalar * float) : gmap nat float :=
  let '(parent_var, parent_deriv) := pd in
  let parent_id := unique_id parent_var in
  match derivatives !! parent_id with
  | None => <[parent_id := parent_deriv]> derivatives
  | Some old => <[parent_id := PrimFloat.add old parent_deriv]> derivatives
  end.

(** The body of the outer loop; the state is the [derivatives] dictionary
    and the store of [derivative] attributes. *)
Definition backprop_step (st : gmap nat float * gmap nat float) (var : Scalar)
    : result (gmap nat float * gmap nat float) :=
  let '(derivatives, store) := st in
  match derivatives !! unique_id var with
  | None => Raise KeyError
  | Some deriv =>
      if is_leaf var then
        Ok (derivatives, accumulate_derivative var deriv store)
      else
        match history var with
        | Some _ =>
            pairs ← chain_rule var deriv ;
            Ok (fold_left add_parent_deriv pairs derivatives, store)
        | None => Ok (derivatives, store)
        end
  end.

Fixpoint backprop_loop (vars : list Scalar)
    (st : gmap nat float * gmap nat float)
    : result (gmap nat float * gmap nat float) :=
  match vars with
  | [] => Ok st
  | var :: rest => st ← backprop_step st var ; backprop_loop rest st
  end.

Definition backpropagate (variable : Scalar) (deriv : float)
    (store : gmap nat float) : result (gmap nat float) :=
  let sorted_variables := topological_sort variable in
  let derivatives : gmap nat float := {[unique_id variable := deriv]} in
  st ← backprop_loop (reverse sorted_variables) (derivatives, store) ;
  Ok st.2.

(** * The vocabulary of the properties *)

(** The number of nodes of a graph, counted along every path. *)
Fixpoint Scalar_size (s : Scalar) : nat :=
  S (match history s with
     | None => 0
     | Some h => list_sum (map Scalar_size (inputs h))
     end).

(** [reaches root v]: [v] is [root] or one of its ancestors through
    [history.inputs]. *)
Definition reaches : relation Scalar := rtc (λ v p, p ∈ parents v).

(** Distinct objects carry distinct ids: among the nodes of a graph, the id
    determines the node. *)
Definition unique_ids (root : Scalar) : Prop :=
  ∀ a b, reaches root a → reaches root b → unique_id a = unique_id b → a = b.

(** The ids of a list of nodes, as a set. *)
Definition ids (l : list Scalar) : gset nat := list_to_set (unique_id <$> l).
Arguments ids : simpl never.

(** The loop [for parent in var.parents: visit(parent)]. *)
Definition visit_all (ps : list Scalar) (st : gset nat * list Scalar)
    : gset nat * list Scalar :=
  fold_left (λ st parent, visit parent st) ps st.

(** [ordered V N]: reading [N] from the left with [V] the ids already
    marked, every non-constant parent of a node is marked before the node
    itself is met. *)
Fixpoint ordered (V : gset nat) (N : list Scalar) : Prop :=
  match N with
  | [] => True
  | n :: N =>
      (∀ p, p ∈ parents n → is_constant p = false → unique_id p ∈ V)
      ∧ ordered ({[unique_id n]} ∪ V) N
  end.

(** [consumed T N]: every node of [N] is a target in [T], or feeds a node
    further to the right. *)
Fixpoint consumed (T : Scalar → Prop) (N : list Scalar) : Prop :=
  match N with
  | [] => True
  | n :: N => (T n ∨ ∃ c, c ∈ N ∧ n ∈ parents c) ∧ consumed T N
  end.

(** The effect of a traversal started in state [st]: it appends the list
    [N] of new nodes, all within the scope [R], and marks exactly their
    ids.  The order of [N] respects the parents where ids are unique
    ([U]). *)
Definition visits (U : Prop) (R T : Scalar → Prop)
    (st st' : gset nat * list Scalar) (N : list Scalar) : Prop :=
  st' = (ids N ∪ st.1, st.2 ++ N)
  ∧ NoDup (unique_id <$> N)
  ∧ (∀ n, n ∈ N → (unique_id n ∉ st.1) ∧ is_constant n = false ∧ R n)
  ∧ (U → ordered st.1 N)
  ∧ consumed T N.

(** What [visit v] does from any state: the new nodes are ancestors of
    [v], [v] ends up marked, and stands last among them when it was not
    marked before. *)
Definition visit_post (v : Scalar) : Prop :=
  ∀ V S, ∃ N,
    visits (unique_ids v) (reaches v) (eq v) (V, S) (visit v (V, S)) N
    ∧ (is_constant v = false → unique_id v ∈ ids N ∪ V)
    ∧ (is_constant v = false → unique_id v ∉ V → ∃ N', N = N' ++ [v]).

(** All the nodes of a graph, with repetitions. *)
Fixpoint nodes (v : Scalar) : list Scalar :=
  v :: match history v with
       | None => []
       | Some h => flat_map nodes (inputs h)
       end.

(** The contract of [backward] seen from the node: when the chain rule
    returns, it returns one pair per parent, in order. *)
Definition chain_rule_covers (v : Scalar) : Prop :=
  ∀ d pairs, chain_rule v d = Ok pairs → pairs.*1 = parents v.

(** The same for every node of the graph. *)
Definition backward_contract (root : Scalar) : Prop :=
  ∀ v, reaches root v → chain_rule_covers v.

(** [seeded root done D]: the dictionary [D] holds an entry for the root and
    for every parent of a node processed so far. *)
Definition seeded (root : Scalar) (done : list Scalar) (D : gmap nat float) : Prop :=
  unique_id root ∈ dom D
  ∧ ∀ c p, c ∈ done → p ∈ parents c → unique_id p ∈ dom D.

(** Every operation node of the graph has a chain rule that returns, with
    one pair per parent. *)
Definition backward_returns (root : Scalar) : Prop :=
  ∀ v, reaches root v → is_leaf v = false →
    ∀ d, ∃ pairs, chain_rule v d = Ok pairs ∧ pairs.*1 = parents v.

(** [respects_arity cls]: on the context a [forward] call has written,
    [_backward] returns as many local derivatives as [forward] took
    inputs. *)
Definition respects_arity (cls : ScalarFunction) : Prop :=
  ∀ ctx0 inps c ctx' d x,
    no_grad ctx0 = false →
    _forward cls ctx0 inps = Ok (c, ctx') →
    _backward cls ctx' d = Ok x →
    length x = length inps.

(** [wrapped n n' v s]: the scalar [s] stands for the argument [v]: [v]
    itself when it is a [Scalar], and otherwise a bare leaf holding [v],
    built while the counter went from [n] to [n']. *)
Definition wrapped (n n' : nat) (v : ScalarLike) (s : Scalar) : Prop :=
  match v with
  | IsScalar s0 => s = s0
  | IsFloat x =>
      data s = x ∧ history s = Some bare_history ∧ n ≤ unique_id s < n'
  end.

(** [wraps n vals ss fr n']: the loop of [apply] over [vals], started with
    the counter at [n], yields the scalars [ss], of which [fr] are the
    newly built ones, and leaves the counter at [n']. *)
Inductive wraps : nat → list ScalarLike → list Scalar → list Scalar → nat → Prop :=
  | wraps_nil n : wraps n [] [] [] n
  | wraps_scalar n s vals ss fr n' :
      wraps n vals ss fr n' →
      wraps n (IsScalar s :: vals) (s :: ss) fr n'
  | wraps_float n x vals ss fr n' :
      wraps (S n) vals ss fr n' →
      wraps n (IsFloat x :: vals)
        (MkScalar n x (Some bare_history) :: ss)
        (MkScalar n x (Some bare_history) :: fr) n'.

(** [universe_ok U n]: the nodes built so far, [U], with the counter at
    [n]: ids determine nodes, all ids are below the counter, and the
    parents of a node of [U] are in [U]. *)
Definition universe_ok (U : Scalar → Prop) (n : nat) : Prop :=
  (∀ a b, U a → U b → unique_id a = unique_id b → a = b)
  ∧ (∀ a, U a → unique_id a < n)
  ∧ (∀ a p, U a → p ∈ parents a → U p).

(** The nodes a call to [apply] adds: the result and its inputs. *)
Definition extended (U : Scalar → Prop) (s : Scalar) : Scalar → Prop :=
  λ a, U a ∨ a = s ∨ a ∈ parents s.

(** The ten primitives of [scalar_functions.py], over the three entry
    points of [operators.py]. *)
Definition primitives (log : float → result float)
    (log_back : float → float → result float) (exp : float → result float)
    : list ScalarFunction :=
  [Add; Log log log_back; Mul; Inv; Neg; Sigmoid exp; ReLU; Exp exp; LT; EQ].

(** The primitives whose [backward] reads [saved_values]. *)
Definition saving_primitives (log : float → result float)
    (log_back : float → float → result float) (exp : float → result float)
    : list ScalarFunction :=
  [Log log log_back; Mul; Inv; Sigmoid exp; ReLU; Exp exp].

(** The number of bare floats among the arguments of [apply]. *)
Fixpoint count_floats (vals : list ScalarLike) : nat :=
  match vals with
  | [] => 0
  | IsFloat _ :: vals => S (count_floats vals)
  | IsScalar _ :: vals => count_floats vals
  end.

(** [add_gradient G store]: the store after the derivative [G] holds for
    an id has been accumulated into the attribute of that id, for every id
    of [G]: added to the derivative that was there, set where none was. *)
Definition add_gradient (G store : gmap nat float) : gmap nat float :=
  union_with (λ old g, Some (PrimFloat.add old g)) store G.

(** * Concrete inputs *)

(** ** The concrete graphs used below *)

Module Graphs.

(** [x = Scalar(7.0)], the first node ever built. *)
Definition x : Scalar := (Scalar_init 7%float (Some bare_history) 1).1.

(** [y = Add.apply(x, x)]. *)
Definition y : Scalar :=
  {| unique_id := 2; data := 14%float;
     history := Some (MkHistory (Some Add) (Some (mkContext false [])) [x; x]) |}.

(** [k = Scalar(3.0, None)], a constant, and [z = Mul.apply(x, k)]. *)
Definition k : Scalar := (Scalar_init 3%float None 2).1.

Definition z : Scalar :=
  {| unique_id := 3; data := 21%float;
     history := Some (MkHistory (Some Mul)
                        (Some (mkContext false [7%float; 3%float])) [x; k]) |}.

(** [w = Scalar(9.0)], a second leaf, built after [x]. *)
Definition w : Scalar := MkScalar 2 9%float (Some bare_history).

End Graphs.

(** ** The graph of the concrete scenario *)

Module Scenario.

(** The leaves [Add.apply(2.0, 3.0)] and [Mul.apply(s, 4.0)] build around
    their float arguments, from a counter at its initial value 1. *)
Definition two : Scalar := MkScalar 1 2%float (Some bare_history).
Definition three : Scalar := MkScalar 2 3%float (Some bare_history).
Definition four : Scalar := MkScalar 4 4%float (Some bare_history).

Definition s : Scalar :=
  MkScalar 3 5%float
    (Some (MkHistory (Some Add) (Some (mkContext false [])) [two; three])).

(** [c = Mul.apply(Add.apply(2.0, 3.0), 4.0)]. *)
Definition c : Scalar :=
  MkScalar 5 20%float
    (Some (MkHistory (Some Mul) (Some (mkContext false [5%float; 4%float]))
             [s; four])).

End Scenario.

(** An operation that breaks the contract: its [forward] returns a pair. *)
Definition BadPair : ScalarFunction := {|
  forward ctx inps := Ok (PyTuple inps, ctx);
  backward ctx d_output := Ok (Single d_output)
|}.

(** [f(a, b) = a * b], a function to differentiate. *)
Definition product (l : list float) : result float :=
  match l with
  | [a; b] => Ok (PrimFloat.mul a b)
  | _ => Raise TypeError
  end.

(** * Properties *)

(** ** The shape of the graph *)

Lemma parent_size (p v : Scalar) : p ∈ parents v → Scalar_size p < Scalar_size v.
Proof.
  destruct v as [i x [[fn c ins]|]]; cbn; [|by intros ?%elem_of_nil].
  induction ins as [|q ins IH]; cbn; [by intros ?%elem_of_nil|].
  intros [->|Hin]%elem_of_cons; [lia|].
  specialize (IH Hin). lia.
Qed.

(** Induction over a node with the property in hand for all its parents. *)
Lemma Scalar_parents_ind (P : Scalar → Prop) :
  (∀ v, (∀ p, p ∈ parents v → P p) → P v) → ∀ v, P v.
Proof.
  intros step.
  assert (∀ n v, Scalar_size v < n → P v) as bounded.
  { induction n as [|n IH]; intros v Hv; [lia|].
    apply step. intros p Hp%parent_size. apply IH. lia. }
  intros v. apply (bounded (S (Scalar_size v))). lia.
Qed.

Lemma reaches_size (root v : Scalar) : reaches root v → Scalar_size v ≤ Scalar_size root.
Proof.
  induction 1 as [|a b c Hab _ IH]; [done|].
  apply parent_size in Hab. lia.
Qed.

Lemma reaches_parent (root v p : Scalar) :
  reaches root v → p ∈ parents v → reaches root p.
Proof. intros Hv Hp. eapply rtc_r; eauto. Qed.

Lemma reaches_from_parent (v p a : Scalar) :
  p ∈ parents v → reaches p a → reaches v a.
Proof. intros Hp Ha. eapply rtc_l; eauto. Qed.

Lemma unique_ids_parent (v p : Scalar) :
  unique_ids v → p ∈ parents v → unique_ids p.
Proof.
  intros Hv Hp a b Ha Hb. apply Hv; by eapply reaches_from_parent.
Qed.

(** A proper ancestor never shares the id of the node it feeds. *)
Lemma ancestor_id_ne (v n p : Scalar) :
  unique_ids v → reaches v n → p ∈ parents n → unique_id p ≠ unique_id v.
Proof.
  intros Hv Hn Hp Heq.
  assert (p = v) as ->.
  { apply Hv; [by eapply reaches_parent|apply rtc_refl|done]. }
  apply parent_size in Hp. apply reaches_size in Hn. lia.
Qed.

Lemma is_constant_parents (v : Scalar) : is_constant v = true → parents v = [].
Proof. unfold is_constant, parents. by destruct (history v). Qed.

Lemma is_leaf_parents (v : Scalar) : is_leaf v = true ↔ parents v = [].
Proof.
  unfold is_leaf, parents. destruct (history v) as [h|]; [|done].
  by destruct (inputs h).
Qed.

(** ** Topological sort: what one call to [visit] does *)

Lemma visit_unfold (var : Scalar) (visited : gset nat) (sorted : list Scalar) :
  visit var (visited, sorted) =
  if bool_decide (unique_id var ∈ visited) || is_constant var
  then (visited, sorted)
  else
    let st := visit_all (parents var) ({[unique_id var]} ∪ visited, sorted) in
    (st.1, st.2 ++ [var]).
Proof.
  destruct var as [i x [h|]]; cbn; [done|].
  by rewrite orb_true_r.
Qed.

Lemma elem_of_ids (i : nat) (N : list Scalar) :
  i ∈ ids N ↔ ∃ n, n ∈ N ∧ unique_id n = i.
Proof.
  unfold ids. rewrite elem_of_list_to_set, list_elem_of_fmap. naive_solver.
Qed.

Lemma ids_app (N1 N2 : list Scalar) : ids (N1 ++ N2) = ids N1 ∪ ids N2.
Proof. unfold ids. by rewrite fmap_app, list_to_set_app_L. Qed.

Lemma ids_cons (n : Scalar) (N : list Scalar) : ids (n :: N) = {[unique_id n]} ∪ ids N.
Proof. done. Qed.

Lemma ordered_mono (V V' : gset nat) (N : list Scalar) :
  V ⊆ V' → ordered V N → ordered V' N.
Proof.
  revert V V'. induction N as [|n N IH]; cbn; [done|].
  intros V V' Hsub [Hn HN]. split; [set_solver|].
  eapply IH; [|done]. set_solver.
Qed.

Lemma ordered_app (V : gset nat) (N1 N2 : list Scalar) :
  ordered V (N1 ++ N2) ↔ ordered V N1 ∧ ordered (ids N1 ∪ V) N2.
Proof.
  revert V. induction N1 as [|n N1 IH]; intros V; cbn.
  - replace (ids [] ∪ V) with V by set_solver. tauto.
  - rewrite IH, ids_cons.
    replace (ids N1 ∪ ({[unique_id n]} ∪ V))
      with ({[unique_id n]} ∪ ids N1 ∪ V) by set_solver.
    tauto.
Qed.

Lemma ordered_remove (x : nat) (V : gset nat) (N : list Scalar) :
  (∀ n p, n ∈ N → p ∈ parents n → unique_id p ≠ x) →
  ordered ({[x]} ∪ V) N → ordered V N.
Proof.
  revert V. induction N as [|n N IH]; cbn; [done|].
  intros V Hx [Hn HN]. split.
  - intros p Hp Hc. specialize (Hn p Hp Hc).
    assert (unique_id p ≠ x) by (eapply Hx; [left|done]). set_solver.
  - apply IH; [intros m p Hm; apply Hx; by right|].
    eapply ordered_mono; [|done]. set_solver.
Qed.

Lemma consumed_mono (T T' : Scalar → Prop) (N : list Scalar) :
  (∀ n, T n → T' n) → consumed T N → consumed T' N.
Proof.
  intros HT. induction N as [|n N IH]; cbn; [done|].
  intros [[?|?] ?]; split; auto.
Qed.

Lemma consumed_app (T1 T : Scalar → Prop) (N1 N2 : list Scalar) :
  (∀ n, T1 n → T n ∨ ∃ c, c ∈ N2 ∧ n ∈ parents c) →
  consumed T1 N1 → consumed T N2 → consumed T (N1 ++ N2).
Proof.
  intros HT. induction N1 as [|n N1 IH]; cbn; [done|].
  intros [Hn HN1] HN2. split; [|by apply IH].
  destruct Hn as [Hn|(c & Hc & Hp)].
  - destruct (HT n Hn) as [?|(c & Hc & Hp)]; [by left|].
    right. exists c. set_solver.
  - right. exists c. set_solver.
Qed.

Lemma consumed_split (T : Scalar → Prop) (N1 N2 : list Scalar) (n : Scalar) :
  consumed T (N1 ++ n :: N2) → T n ∨ ∃ c, c ∈ N2 ∧ n ∈ parents c.
Proof. induction N1 as [|m N1 IH]; cbn; tauto. Qed.

Lemma visits_nil (U : Prop) (R T : Scalar → Prop) (st : gset nat * list Scalar) :
  visits U R T st st [].
Proof.
  destruct st as [V S]. unfold visits; cbn. split_and!.
  - f_equal; [set_solver|by rewrite app_nil_r].
  - constructor.
  - by intros n ?%elem_of_nil.
  - done.
  - done.
Qed.

Lemma visit_all_spec (ps : list Scalar) :
  (∀ p, p ∈ ps → visit_post p) →
  ∀ V S, ∃ N,
    visits (∀ p, p ∈ ps → unique_ids p)
           (λ n, ∃ p, p ∈ ps ∧ reaches p n) (λ n, n ∈ ps)
           (V, S) (visit_all ps (V, S)) N
    ∧ (∀ p, p ∈ ps → is_constant p = false → unique_id p ∈ ids N ∪ V).
Proof.
  induction ps as [|p ps IH]; intros Hps V S.
  - exists []. split; [apply visits_nil|]. by intros p ?%elem_of_nil.
  - assert (visit_post p) as Hpost by (apply Hps; left).
    destruct (Hpost V S) as (Np & (Hst & Hnd & Hin & Hord & Hcon) & Hp & _).
    assert (∀ q, q ∈ ps → visit_post q) as Hps_tl by (intros q Hq; apply Hps; by right).
    destruct (IH Hps_tl (ids Np ∪ V) (S ++ Np))
      as (N & (Hst' & Hnd' & Hin' & Hord' & Hcon') & Hps').
    cbn in *. exists (Np ++ N). unfold visit_all in *. cbn.
    rewrite Hst, Hst'. split; [unfold visits; cbn; split_and!|].
    + rewrite ids_app. f_equal; [set_solver|by rewrite app_assoc].
    + rewrite fmap_app. apply NoDup_app. split_and!; [done| |done].
      intros i Hi (n & -> & Hn)%list_elem_of_fmap.
      destruct (Hin' n Hn) as [Hfresh _]. apply Hfresh.
      apply elem_of_union_l, elem_of_list_to_set, Hi.
    + intros n [Hn|Hn]%elem_of_app.
      * destruct (Hin n Hn) as (? & ? & ?). split_and!; [done..|].
        exists p. split; [left|done].
      * destruct (Hin' n Hn) as (? & ? & q & ? & ?). split_and!; [set_solver|done|].
        exists q. split; [by right|done].
    + intros Huniq. apply ordered_app. split.
      * apply Hord, Huniq. left.
      * apply Hord'. intros q Hq. apply Huniq. by right.
    + eapply consumed_app; [|done|].
      * intros n <-. left. left.
      * eapply consumed_mono; [|done]. intros n ?. by right.
    + intros q [->|Hq]%elem_of_cons Hc.
      * rewrite ids_app. specialize (Hp Hc). set_solver.
      * rewrite ids_app. specialize (Hps' q Hq Hc). set_solver.
Qed.

Lemma visit_spec (v : Scalar) : visit_post v.
Proof.
  induction v as [v IH] using Scalar_parents_ind. intros V S.
  rewrite visit_unfold.
  destruct (bool_decide (unique_id v ∈ V) || is_constant v) eqn:Hskip.
  - exists []. split_and!.
    + apply visits_nil.
    + intros Hc. rewrite Hc, orb_false_r in Hskip.
      apply bool_decide_eq_true in Hskip. set_solver.
    + intros Hc Hfresh. rewrite Hc, orb_false_r in Hskip.
      by apply bool_decide_eq_true in Hskip.
  - apply orb_false_iff in Hskip as [Hfresh%bool_decide_eq_false Hc].
    destruct (visit_all_spec (parents v) IH ({[unique_id v]} ∪ V) S)
      as (N & (Hst & Hnd & Hin & Hord & Hcon) & Hps).
    cbn in *. exists (N ++ [v]). rewrite Hst. cbn.
    assert (∀ n, n ∈ N → reaches v n) as Hreach.
    { intros n Hn. destruct (Hin n Hn) as (_ & _ & p & Hp & Hpn).
      by eapply reaches_from_parent. }
    split_and!; [unfold visits; cbn; split_and!| |].
    + rewrite ids_app, ids_cons, app_assoc. f_equal. set_solver.
    + rewrite fmap_app. apply NoDup_app. split_and!; [done| |apply NoDup_singleton].
      intros i (n & -> & Hn)%list_elem_of_fmap Hi.
      destruct (Hin n Hn) as [Hn' _]. set_solver.
    + intros n [Hn| ->%list_elem_of_singleton]%elem_of_app.
      * destruct (Hin n Hn) as (? & ? & _). split_and!; [set_solver|done|auto].
      * split_and!; [done..|apply rtc_refl].
    + intros Huniq. apply ordered_app. split.
      * apply (ordered_remove (unique_id v)).
        { intros n p Hn Hp. eapply ancestor_id_ne; eauto. }
        apply Hord. intros p Hp. by eapply unique_ids_parent.
      * cbn. split; [|done]. intros p Hp Hpc.
        specialize (Hps p Hp Hpc).
        assert (unique_id p ≠ unique_id v).
        { eapply ancestor_id_ne; [done|apply rtc_refl|done]. }
        set_solver.
    + eapply consumed_app; [|done|].
      * intros n Hn. right. exists v. split; [left|done].
      * cbn. auto.
    + intros _. rewrite ids_app, ids_cons. set_solver.
    + intros _ _. by exists N.
Qed.

Lemma topological_sort_visits (root : Scalar) :
  ∃ N, topological_sort root = N
    ∧ visits (unique_ids root) (reaches root) (eq root) (∅, []) (ids N ∪ ∅, N) N
    ∧ (is_constant root = false → ∃ N', N = N' ++ [root]).
Proof.
  destruct (visit_spec root ∅ []) as (N & Hv & _ & Hlast).
  exists N. unfold topological_sort.
  pose proof Hv as (Hst & _). rewrite Hst in *. cbn in *.
  split_and!; [done|done|]. intros Hc. apply Hlast; [done|set_solver].
Qed.

Lemma nodes_unfold (v : Scalar) : nodes v = v :: flat_map nodes (parents v).
Proof. by destruct v as [i x [h|]]. Qed.

Lemma reaches_nodes (root v : Scalar) : reaches root v → v ∈ nodes root.
Proof.
  induction 1 as [a|a b c Hab _ IH]; rewrite nodes_unfold; [left|].
  right. apply list_elem_of_In, in_flat_map. exists b.
  by rewrite <- !list_elem_of_In.
Qed.

Lemma unique_ids_nodes (root : Scalar) :
  (∀ a b, a ∈ nodes root → b ∈ nodes root → unique_id a = unique_id b → a = b) →
  unique_ids root.
Proof. intros H a b Ha%reaches_nodes Hb%reaches_nodes. by apply H. Qed.

(** ** The concrete graphs *)

Example y_built : apply Add [IsScalar Graphs.x; IsScalar Graphs.x] 2 = (Ok Graphs.y, 3).
Proof. reflexivity. Qed.

Example z_built : apply Mul [IsScalar Graphs.x; IsScalar Graphs.k] 3 = (Ok Graphs.z, 4).
Proof. reflexivity. Qed.

(** Case analysis on membership in an explicit list. *)
Ltac cases_elem H :=
  repeat (apply elem_of_cons in H as [->|H]);
  try (by apply elem_of_nil in H).

Lemma y_unique_ids : unique_ids Graphs.y.
Proof.
  apply unique_ids_nodes. intros a b Ha Hb. cbn in Ha, Hb.
  cases_elem Ha; cases_elem Hb; by cbn.
Qed.

Lemma z_unique_ids : unique_ids Graphs.z.
Proof.
  apply unique_ids_nodes. intros a b Ha Hb. cbn in Ha, Hb.
  cases_elem Ha; cases_elem Hb; by cbn.
Qed.

(** ** Claim C3 *)

(** C3. Topological validity.  In the sequence returned by
    [topological_sort root]: a parent of a node [v] of the sequence that is
    itself in the sequence stands strictly before [v]; the root, when it is
    not constant, stands last; no node stands twice; no node is constant.
    The graph is one of Python objects, where the id determines the
    node ([unique_ids]). *)
Theorem topological_sort_valid (root : Scalar) :
  unique_ids root →
  let s := topological_sort root in
  (∀ v h p, v ∈ s → history v = Some h → p ∈ inputs h → p ∈ s →
     ∃ l1 l2 l3, s = l1 ++ p :: l2 ++ v :: l3)
  ∧ (is_constant root = false → ∃ l, s = l ++ [root])
  ∧ NoDup s
  ∧ NoDup (unique_id <$> s)
  ∧ (∀ v, v ∈ s → is_constant v = false).
Proof.
  intros Huniq s.
  destruct (topological_sort_visits root)
    as (N & HN & (_ & Hnd & Hin & Hord & _) & Hlast).
  subst s. rewrite HN. clear HN. specialize (Hord Huniq). cbn in *. split_and!.
  - intros v h p Hv Hh Hp Hps.
    apply list_elem_of_split in Hv as (l1 & l3 & ->).
    apply ordered_app in Hord as [_ [Hv _]].
    assert (p ∈ parents v) as Hpar by (unfold parents; by rewrite Hh).
    destruct (Hin p Hps) as (_ & Hpc & Hpr).
    specialize (Hv p Hpar Hpc).
    assert (unique_id p ∈ ids l1) as (q & Hq & Hid)%elem_of_ids by set_solver.
    assert (q = p) as ->.
    { apply Huniq; [|done..]. apply Hin. set_solver. }
    apply list_elem_of_split in Hq as (a & b & ->).
    exists a, b, l3. by rewrite <- app_assoc.
  - done.
  - by eapply NoDup_fmap_1.
  - done.
  - intros v Hv. by destruct (Hin v Hv) as (_ & ? & _).
Qed.

Lemma topological_sort_valid_witness :
  unique_ids Graphs.y
  ∧ let s := topological_sort Graphs.y in
    (∀ v h p, v ∈ s → history v = Some h → p ∈ inputs h → p ∈ s →
       ∃ l1 l2 l3, s = l1 ++ p :: l2 ++ v :: l3)
    ∧ (is_constant Graphs.y = false → ∃ l, s = l ++ [Graphs.y])
    ∧ NoDup s
    ∧ NoDup (unique_id <$> s)
    ∧ (∀ v, v ∈ s → is_constant v = false).
Proof.
  split; [exact y_unique_ids|].
  exact (topological_sort_valid Graphs.y y_unique_ids).
Defined.

(** ** Backpropagation: the loop and its invariant *)

Arguments add_parent_deriv : simpl never.
Arguments accumulate_derivative : simpl never.
Arguments backprop_step : simpl never.

Lemma add_parent_deriv_dom (D : gmap nat float) (p : Scalar) (d : float) :
  dom (add_parent_deriv D (p, d)) = {[unique_id p]} ∪ dom D.
Proof.
  unfold add_parent_deriv.
  destruct (D !! unique_id p); by rewrite dom_insert_L.
Qed.

Lemma fold_add_parent_deriv_dom (pairs : list (Scalar * float)) (D : gmap nat float) :
  dom (fold_left add_parent_deriv pairs D) = ids pairs.*1 ∪ dom D.
Proof.
  revert D. induction pairs as [|[p d] pairs IH]; intros D; cbn.
  - unfold ids. set_solver.
  - rewrite IH, add_parent_deriv_dom, ids_cons. set_solver.
Qed.

Lemma backprop_step_inv (D H D' H' : gmap nat float) (var : Scalar) :
  backprop_step (D, H) var = Ok (D', H') →
  ∃ deriv, D !! unique_id var = Some deriv
    ∧ (is_leaf var = true ∧ D' = D ∧ H' = accumulate_derivative var deriv H
       ∨ is_leaf var = false ∧ H' = H
         ∧ ∃ pairs, chain_rule var deriv = Ok pairs
             ∧ D' = fold_left add_parent_deriv pairs D).
Proof.
  unfold backprop_step.
  destruct (D !! unique_id var) as [deriv|]; [|done].
  intros Hstep. exists deriv. split; [done|].
  destruct (is_leaf var) eqn:Hleaf.
  - left. by simplify_eq.
  - right. unfold is_leaf in Hleaf.
    destruct (history var); [|done].
    destruct (chain_rule var deriv) as [pairs|]; [|done].
    cbn in Hstep. simplify_eq. eauto.
Qed.

Lemma backprop_step_seeded (root : Scalar) (done : list Scalar)
    (D H D' H' : gmap nat float) (var : Scalar) :
  seeded root done D → chain_rule_covers var →
  backprop_step (D, H) var = Ok (D', H') →
  seeded root (done ++ [var]) D'.
Proof.
  intros [Hroot Hdone] Hcov
    (deriv & _ & [(Hleaf & -> & _)|(_ & _ & pairs & Hchain & ->)])%backprop_step_inv.
  - split; [done|].
    intros c p [Hc| ->%list_elem_of_singleton]%elem_of_app Hp; [eauto|].
    apply is_leaf_parents in Hleaf. rewrite Hleaf in Hp. by apply elem_of_nil in Hp.
  - unfold seeded. rewrite fold_add_parent_deriv_dom, (Hcov _ _ Hchain).
    split; [set_solver|].
    intros c p [Hc| ->%list_elem_of_singleton]%elem_of_app Hp.
    + apply elem_of_union_r. eauto.
    + apply elem_of_union_l, elem_of_ids. eauto.
Qed.

Lemma backprop_loop_seeded (root : Scalar) (vars done : list Scalar)
    (D H D' H' : gmap nat float) :
  seeded root done D → (∀ v, v ∈ vars → chain_rule_covers v) →
  backprop_loop vars (D, H) = Ok (D', H') →
  seeded root (done ++ vars) D'.
Proof.
  revert done D H. induction vars as [|var vars IH]; intros done D H Hseed Hcov; cbn.
  - intros [= <- <-]. by rewrite app_nil_r.
  - destruct (backprop_step (D, H) var) as [[D1 H1]|] eqn:Hstep; [|done]. cbn.
    intros Hloop. rewrite cons_middle, app_assoc.
    eapply IH; [|intros v Hv; apply Hcov; by right|done].
    eapply backprop_step_seeded; [done|apply Hcov; left|done].
Qed.

(** Every node of the reversed order is the root or a parent of a node
    standing before it. *)
Lemma reverse_sort_consumed (root var : Scalar) (r1 r2 : list Scalar) :
  reverse (topological_sort root) = r1 ++ var :: r2 →
  var = root ∨ ∃ c, c ∈ r1 ∧ var ∈ parents c.
Proof.
  intros Hrev.
  destruct (topological_sort_visits root) as (N & HN & (_ & _ & _ & _ & Hcon) & _).
  rewrite HN in Hrev.
  assert (N = reverse r2 ++ var :: reverse r1) as ->.
  { rewrite <- (reverse_involutive N), Hrev, reverse_app, reverse_cons.
    by rewrite <- app_assoc. }
  apply consumed_split in Hcon as [->|(c & Hc & Hp)]; [by left|].
  right. exists c. by rewrite elem_of_reverse in Hc.
Qed.

Lemma seeded_lookup (root var : Scalar) (r1 r2 : list Scalar) (D : gmap nat float) :
  reverse (topological_sort root) = r1 ++ var :: r2 →
  seeded root r1 D → is_Some (D !! unique_id var).
Proof.
  intros [->|(c & Hc & Hp)]%reverse_sort_consumed [Hroot Hdone];
    apply elem_of_dom; eauto.
Qed.

Lemma topological_sort_reaches (root v : Scalar) :
  v ∈ topological_sort root → reaches root v ∧ is_constant v = false.
Proof.
  destruct (topological_sort_visits root) as (N & -> & (_ & _ & Hin & _) & _).
  intros Hv. by destruct (Hin v Hv) as (_ & ? & ?).
Qed.

Lemma chain_rule_inv (v : Scalar) (d : float) (pairs : list (Scalar * float)) :
  chain_rule v d = Ok pairs →
  ∃ h fn c x, history v = Some h ∧ last_fn h = Some fn ∧ ctx h = Some c
    ∧ _backward fn c d = Ok x ∧ pairs = zip (inputs h) x.
Proof.
  unfold chain_rule. destruct (history v) as [h|]; [|done].
  destruct (last_fn h) as [fn|] eqn:Hfn; [|done].
  destruct (ctx h) as [c|] eqn:Hc; [|done].
  destruct (_backward fn c d) as [x|] eqn:Hx; [|done]. cbn.
  intros [= <-]. by exists h, fn, c, x.
Qed.

Lemma chain_rule_covers_leaf (v : Scalar) : is_leaf v = true → chain_rule_covers v.
Proof.
  intros Hleaf%is_leaf_parents d pairs (h & fn & c & x & Hh & _ & _ & _ & ->)%chain_rule_inv.
  unfold parents in *. rewrite Hh in *. by rewrite Hleaf.
Qed.

Lemma backward_returns_contract (root : Scalar) :
  backward_returns root → backward_contract root.
Proof.
  intros Hret v Hv. destruct (is_leaf v) eqn:Hleaf.
  - by apply chain_rule_covers_leaf.
  - intros d pairs Hpairs. destruct (Hret v Hv Hleaf d) as (pairs' & Hp' & ?).
    congruence.
Qed.

Lemma seeded_init (root : Scalar) (deriv : float) :
  seeded root [] {[unique_id root := deriv]}.
Proof.
  split; [rewrite dom_singleton_L; set_solver|]. by intros c p ?%elem_of_nil.
Qed.

Lemma backprop_prefix_seeded (root : Scalar) (deriv : float)
    (store D H : gmap nat float) (r1 r2 : list Scalar) :
  backward_contract root →
  reverse (topological_sort root) = r1 ++ r2 →
  backprop_loop r1 ({[unique_id root := deriv]}, store) = Ok (D, H) →
  seeded root r1 D.
Proof.
  intros Hcon Hrev Hloop.
  change r1 with ([] ++ r1).
  eapply backprop_loop_seeded; [apply seeded_init| |done].
  intros v Hv. apply Hcon.
  apply (topological_sort_reaches root), elem_of_reverse.
  rewrite Hrev. set_solver.
Qed.

Lemma backprop_loop_returns (root : Scalar) (r2 r1 : list Scalar) (D H : gmap nat float) :
  backward_returns root →
  reverse (topological_sort root) = r1 ++ r2 →
  seeded root r1 D →
  ∃ st, backprop_loop r2 (D, H) = Ok st.
Proof.
  intros Hret. revert r1 D H.
  induction r2 as [|var r2 IH]; intros r1 D H Hrev Hseed; cbn; [by eexists|].
  assert (reaches root var) as Hvar.
  { apply (topological_sort_reaches root), elem_of_reverse.
    rewrite Hrev. set_solver. }
  destruct (seeded_lookup _ _ _ _ _ Hrev Hseed) as [deriv Hderiv].
  assert (∃ D1 H1, backprop_step (D, H) var = Ok (D1, H1)) as (D1 & H1 & Hstep).
  { unfold backprop_step. rewrite Hderiv.
    destruct (is_leaf var) eqn:Hleaf; [by eauto|].
    destruct (Hret var Hvar Hleaf deriv) as (pairs & -> & _).
    unfold is_leaf in Hleaf. destruct (history var); [|done]. cbn. eauto. }
  rewrite Hstep. cbn. apply (IH (r1 ++ [var])).
  - by rewrite <- app_assoc.
  - eapply backprop_step_seeded; [done| |done].
    exact (backward_returns_contract root Hret var Hvar).
Qed.

(** The store is written at the id of a leaf of the processed list, and
    nowhere else. *)
Lemma accumulate_derivative_frame (v : Scalar) (d : float) (H : gmap nat float) (i : nat) :
  unique_id v ≠ i → accumulate_derivative v d H !! i = H !! i.
Proof.
  intros Hne. unfold accumulate_derivative.
  destruct (H !! unique_id v); by rewrite lookup_insert_ne.
Qed.

Lemma backprop_loop_frame (vars : list Scalar) (D H D' H' : gmap nat float) (i : nat) :
  backprop_loop vars (D, H) = Ok (D', H') →
  (∀ v, v ∈ vars → is_leaf v = true → unique_id v ≠ i) →
  H' !! i = H !! i.
Proof.
  revert D H. induction vars as [|var vars IH]; intros D H; cbn.
  - by intros [= <- <-].
  - destruct (backprop_step (D, H) var) as [[D1 H1]|] eqn:Hstep; [|done]. cbn.
    intros Hloop Hleafs.
    rewrite (IH _ _ Hloop) by (intros v Hv; apply Hleafs; by right).
    apply backprop_step_inv in Hstep
      as (deriv & _ & [(Hleaf & _ & ->)|(_ & -> & _)]); [|done].
    apply accumulate_derivative_frame, Hleafs; [left|done].
Qed.

Lemma backpropagate_inv (root : Scalar) (deriv : float) (store store' : gmap nat float) :
  backpropagate root deriv store = Ok store' →
  ∃ D, backprop_loop (reverse (topological_sort root))
         ({[unique_id root := deriv]}, store) = Ok (D, store').
Proof.
  unfold backpropagate. cbn.
  destruct (backprop_loop _ _) as [[D H]|]; [|done]. cbn.
  intros [= <-]. by exists D.
Qed.

(** ** Facts about the concrete graphs *)

Lemma y_backward_returns : backward_returns Graphs.y.
Proof.
  intros v Hv%reaches_nodes Hleaf d. cbn in Hv.
  cases_elem Hv; try done. by eexists.
Qed.

Lemma z_backward_returns : backward_returns Graphs.z.
Proof.
  intros v Hv%reaches_nodes Hleaf d. cbn in Hv.
  cases_elem Hv; try done. by eexists.
Qed.

Example y_topological_sort : topological_sort Graphs.y = [Graphs.x; Graphs.y].
Proof. reflexivity. Qed.

Example z_topological_sort : topological_sort Graphs.z = [Graphs.x; Graphs.z].
Proof. reflexivity. Qed.

(** ** Claim C9 *)

(** C9. No missing derivative entry.  Take any variable [var] of the
    reversed topological order and the state [(D, H)] the loop of
    [backpropagate] has reached when it arrives at [var]: the dictionary
    [D] holds an entry for [var.unique_id], so the lookup succeeds.  The
    operations of the graph honour the contract of [backward]: one local
    derivative per positional input ([backward_contract]). *)
Theorem backpropagate_entry_present (root : Scalar) (deriv : float)
    (store : gmap nat float) (r1 r2 : list Scalar) (var : Scalar)
    (D H : gmap nat float) :
  backward_contract root →
  reverse (topological_sort root) = r1 ++ var :: r2 →
  backprop_loop r1 ({[unique_id root := deriv]}, store) = Ok (D, H) →
  is_Some (D !! unique_id var).
Proof.
  intros Hcon Hrev Hloop.
  eapply seeded_lookup; [done|].
  by eapply backprop_prefix_seeded.
Qed.

Lemma backpropagate_entry_present_witness :
  backward_contract Graphs.y
  ∧ reverse (topological_sort Graphs.y) = [Graphs.y] ++ Graphs.x :: []
  ∧ backprop_loop [Graphs.y] ({[unique_id Graphs.y := 1%float]}, ∅)
    = Ok (<[1 := 2%float]> {[2 := 1%float]}, ∅)
  ∧ is_Some ((<[1 := 2%float]> {[2 := 1%float]} : gmap nat float)
               !! unique_id Graphs.x).
Proof.
  assert (backward_contract Graphs.y) as Hcon
    by exact (backward_returns_contract _ y_backward_returns).
  assert (reverse (topological_sort Graphs.y) = [Graphs.y] ++ Graphs.x :: [])
    as Hrev by reflexivity.
  assert (backprop_loop [Graphs.y] ({[unique_id Graphs.y := 1%float]}, ∅)
          = Ok (<[1 := 2%float]> {[2 := 1%float]}, ∅)) as Hloop
    by (vm_compute; reflexivity).
  split_and!; [done..|].
  exact (backpropagate_entry_present Graphs.y 1%float ∅ [Graphs.y] []
           Graphs.x _ ∅ Hcon Hrev Hloop).
Defined.

(** ** Claim C4 *)

(** C4. Leaf-only accumulation.  Whatever prefix of the reversed order the
    loop of [backpropagate] has processed, the store of [derivative]
    attributes differs from the initial one only at ids of leaves standing
    in that order; so the attribute of a node of the graph that is not a
    leaf is untouched, and so is the attribute of a constant.  A constant
    never stands in the order.  When every operation node of the graph has
    a chain rule that returns, the call returns, constants present or
    not. *)
Theorem backpropagate_leaf_only (root : Scalar) (deriv : float)
    (store : gmap nat float) :
  unique_ids root →
  (∀ r1 r2 D H,
     reverse (topological_sort root) = r1 ++ r2 →
     backprop_loop r1 ({[unique_id root := deriv]}, store) = Ok (D, H) →
     (∀ i, (∀ v, v ∈ r1 → is_leaf v = true → unique_id v ≠ i) →
           H !! i = store !! i)
     ∧ (∀ v, reaches root v → is_leaf v = false →
             H !! unique_id v = store !! unique_id v)
     ∧ (∀ v, reaches root v → is_constant v = true →
             H !! unique_id v = store !! unique_id v))
  ∧ (∀ store',
       backpropagate root deriv store = Ok store' →
       (∀ v, reaches root v → is_leaf v = false →
             store' !! unique_id v = store !! unique_id v)
       ∧ (∀ v, reaches root v → is_constant v = true →
               store' !! unique_id v = store !! unique_id v))
  ∧ (∀ v, is_constant v = true → v ∉ topological_sort root)
  ∧ (backward_returns root →
       ∃ store', backpropagate root deriv store = Ok store').
Proof.
  intros Huniq.
  assert (∀ r1 r2 D H,
     reverse (topological_sort root) = r1 ++ r2 →
     backprop_loop r1 ({[unique_id root := deriv]}, store) = Ok (D, H) →
     (∀ i, (∀ v, v ∈ r1 → is_leaf v = true → unique_id v ≠ i) →
           H !! i = store !! i)
     ∧ (∀ v, reaches root v → is_leaf v = false →
             H !! unique_id v = store !! unique_id v)
     ∧ (∀ v, reaches root v → is_constant v = true →
             H !! unique_id v = store !! unique_id v)) as Hprefix.
  { intros r1 r2 D H Hrev Hloop.
    assert (∀ u, u ∈ r1 → reaches root u ∧ is_constant u = false) as Hr1.
    { intros u Hu. apply topological_sort_reaches, elem_of_reverse.
      rewrite Hrev. set_solver. }
    split_and!.
    - intros i. by eapply backprop_loop_frame.
    - intros v Hv Hleaf. eapply backprop_loop_frame; [done|].
      intros u Hu Hul Heq. destruct (Hr1 u Hu) as [Hur _].
      assert (u = v) as -> by by apply Huniq. congruence.
    - intros v Hv Hc. eapply backprop_loop_frame; [done|].
      intros u Hu _ Heq. destruct (Hr1 u Hu) as [Hur Huc].
      assert (u = v) as -> by by apply Huniq. congruence. }
  split_and!.
  - done.
  - intros store' (D & Hloop)%backpropagate_inv.
    destruct (Hprefix _ [] D store' ltac:(by rewrite app_nil_r) Hloop)
      as (_ & ? & ?).
    by split.
  - intros v Hc Hv%topological_sort_reaches. destruct Hv. congruence.
  - intros Hret.
    destruct (backprop_loop_returns root (reverse (topological_sort root)) []
                {[unique_id root := deriv]} store Hret eq_refl
                (seeded_init root deriv)) as [[D H] Hloop].
    exists H. unfold backpropagate. cbn. by rewrite Hloop.
Qed.

Lemma backpropagate_leaf_only_witness :
  unique_ids Graphs.z
  ∧ (∀ r1 r2 D H,
       reverse (topological_sort Graphs.z) = r1 ++ r2 →
       backprop_loop r1 ({[unique_id Graphs.z := 1%float]}, ∅) = Ok (D, H) →
       (∀ i, (∀ v, v ∈ r1 → is_leaf v = true → unique_id v ≠ i) →
             H !! i = (∅ : gmap nat float) !! i)
       ∧ (∀ v, reaches Graphs.z v → is_leaf v = false →
               H !! unique_id v = (∅ : gmap nat float) !! unique_id v)
       ∧ (∀ v, reaches Graphs.z v → is_constant v = true →
               H !! unique_id v = (∅ : gmap nat float) !! unique_id v))
  ∧ (∀ store',
       backpropagate Graphs.z 1%float ∅ = Ok store' →
       (∀ v, reaches Graphs.z v → is_leaf v = false →
             store' !! unique_id v = (∅ : gmap nat float) !! unique_id v)
       ∧ (∀ v, reaches Graphs.z v → is_constant v = true →
               store' !! unique_id v = (∅ : gmap nat float) !! unique_id v))
  ∧ (∀ v, is_constant v = true → v ∉ topological_sort Graphs.z)
  ∧ (backward_returns Graphs.z →
       ∃ store', backpropagate Graphs.z 1%float ∅ = Ok store').
Proof.
  split; [exact z_unique_ids|].
  exact (backpropagate_leaf_only Graphs.z 1%float ∅ z_unique_ids).
Defined.

(** The run on [z = x * k]: only the leaf [x] gets a derivative; the
    constant [k] and the product [z] get none. *)
Example z_backpropagate :
  backpropagate Graphs.z 1%float ∅ = Ok {[1 := 3%float]}.
Proof. vm_compute. reflexivity. Qed.

(** ** Stepping through a run *)

Lemma visit_all_nil (st : gset nat * list Scalar) : visit_all [] st = st.
Proof. done. Qed.

Lemma visit_all_cons (p : Scalar) (ps : list Scalar) (st : gset nat * list Scalar) :
  visit_all (p :: ps) st = visit_all ps (visit p st).
Proof. done. Qed.

Lemma visit_seen (x : Scalar) (V : gset nat) (S : list Scalar) :
  unique_id x ∈ V → visit x (V, S) = (V, S).
Proof. intros Hx. rewrite visit_unfold. by rewrite bool_decide_eq_true_2. Qed.

Lemma visit_node (v : Scalar) (V : gset nat) (S : list Scalar) :
  is_constant v = false → unique_id v ∉ V →
  visit v (V, S) =
  ((visit_all (parents v) ({[unique_id v]} ∪ V, S)).1,
   (visit_all (parents v) ({[unique_id v]} ∪ V, S)).2 ++ [v]).
Proof.
  intros Hc Hv. rewrite visit_unfold. by rewrite bool_decide_eq_false_2, Hc.
Qed.

Lemma visit_leaf (x : Scalar) (V : gset nat) (S : list Scalar) :
  is_constant x = false → is_leaf x = true → unique_id x ∉ V →
  visit x (V, S) = ({[unique_id x]} ∪ V, S ++ [x]).
Proof.
  intros Hc Hl%is_leaf_parents Hx. rewrite visit_node by done. by rewrite Hl.
Qed.

Lemma visit_const (x : Scalar) (V : gset nat) (S : list Scalar) :
  is_constant x = true → visit x (V, S) = (V, S).
Proof. intros Hc. rewrite visit_unfold. by rewrite Hc, orb_true_r. Qed.

Lemma backprop_step_leaf (v : Scalar) (D H : gmap nat float) (d : float) :
  D !! unique_id v = Some d → is_leaf v = true →
  backprop_step (D, H) v = Ok (D, accumulate_derivative v d H).
Proof. intros HD Hl. unfold backprop_step. by rewrite HD, Hl. Qed.

Lemma backprop_step_node (v : Scalar) (D H : gmap nat float) (d : float)
    (pairs : list (Scalar * float)) :
  D !! unique_id v = Some d → is_leaf v = false → chain_rule v d = Ok pairs →
  backprop_step (D, H) v = Ok (fold_left add_parent_deriv pairs D, H).
Proof.
  intros HD Hl Hp. unfold backprop_step. rewrite HD, Hl, Hp.
  unfold is_leaf in Hl. by destruct (history v).
Qed.

Lemma add_parent_deriv_new (D : gmap nat float) (p : Scalar) (d : float) :
  D !! unique_id p = None →
  add_parent_deriv D (p, d) = <[unique_id p := d]> D.
Proof. intros HD. unfold add_parent_deriv. by rewrite HD. Qed.

Lemma add_parent_deriv_old (D : gmap nat float) (p : Scalar) (d old : float) :
  D !! unique_id p = Some old →
  add_parent_deriv D (p, d) = <[unique_id p := PrimFloat.add old d]> D.
Proof. intros HD. unfold add_parent_deriv. by rewrite HD. Qed.

Lemma accumulate_derivative_lookup (v : Scalar) (d : float) (H : gmap nat float) :
  accumulate_derivative v d H !! unique_id v
  = Some (match H !! unique_id v with
          | None => d
          | Some old => PrimFloat.add old d
          end).
Proof.
  unfold accumulate_derivative.
  destruct (H !! unique_id v); by rewrite lookup_insert_eq.
Qed.

(** ** Claim C1 *)

(** The run on [y = x + x] for an arbitrary leaf [x] built before [y]. *)
Lemma backpropagate_add_self (x : Scalar) (n : nat) (store : gmap nat float) :
  is_constant x = false → is_leaf x = true → unique_id x < n →
  ∃ y, apply Add [IsScalar x; IsScalar x] n = (Ok y, S n)
    ∧ parents y = [x; x]
    ∧ backpropagate y 1%float store
      = Ok (accumulate_derivative x 2%float store).
Proof.
  intros Hc Hl Hlt.
  set (y := MkScalar n (PrimFloat.add (data x) (data x))
              (Some (MkHistory (Some Add) (Some (mkContext false [])) [x; x]))).
  exists y. split_and!; [reflexivity..|].
  assert (unique_id x ≠ n) as Hne by lia.
  unfold backpropagate, topological_sort.
  rewrite visit_node by (done || set_solver).
  change (parents y) with [x; x]. unfold visit_all. cbn [fold_left].
  rewrite visit_leaf by (done || set_solver).
  rewrite visit_seen by set_solver.
  cbn [fst snd app reverse rev_append]. change (unique_id y) with n.
  cbn [backprop_loop].
  rewrite (backprop_step_node y _ _ 1%float [(x, 1%float); (x, 1%float)]);
    [|apply lookup_singleton_eq|done|done].
  cbn [mbind result_bind fold_left].
  rewrite (add_parent_deriv_new {[n := 1%float]})
    by (apply lookup_singleton_ne; lia).
  erewrite add_parent_deriv_old by apply lookup_insert_eq.
  erewrite (backprop_step_leaf x); [|apply lookup_insert_eq|done].
  done.
Qed.

Ltac ids_solver := done || (set_unfold; cbn; lia).

Ltac lookup_solver :=
  repeat (rewrite lookup_insert_ne by (cbn; lia));
  first [ apply lookup_insert_eq
        | apply lookup_singleton_eq
        | apply lookup_singleton_ne; cbn; lia
        | apply lookup_empty ].

(** The run on a diamond: [x] feeds [a = x * 2.0] and [b = x * 3.0], which
    merge in [y = a + b]. *)
Lemma backpropagate_diamond (x : Scalar) (n : nat) (store : gmap nat float) :
  is_constant x = false → is_leaf x = true → unique_id x < n →
  ∃ a b y,
    apply Mul [IsScalar x; IsFloat 2%float] n = (Ok a, 2 + n)
    ∧ apply Mul [IsScalar x; IsFloat 3%float] (2 + n) = (Ok b, 4 + n)
    ∧ apply Add [IsScalar a; IsScalar b] (4 + n) = (Ok y, 5 + n)
    ∧ ∃ store',
        backpropagate y 1%float store = Ok store'
        ∧ store' !! unique_id x
          = Some (match store !! unique_id x with
                  | None => 5%float
                  | Some old => PrimFloat.add old 5%float
                  end).
Proof.
  intros Hc Hl Hlt.
  set (c2 := MkScalar n 2%float (Some bare_history)).
  set (a := MkScalar (1 + n) (PrimFloat.mul (data x) 2%float)
              (Some (MkHistory (Some Mul)
                       (Some (mkContext false [data x; 2%float])) [x; c2]))).
  set (c3 := MkScalar (2 + n) 3%float (Some bare_history)).
  set (b := MkScalar (3 + n) (PrimFloat.mul (data x) 3%float)
              (Some (MkHistory (Some Mul)
                       (Some (mkContext false [data x; 3%float])) [x; c3]))).
  set (y := MkScalar (4 + n) (PrimFloat.add (data a) (data b))
              (Some (MkHistory (Some Add) (Some (mkContext false [])) [a; b]))).
  exists a, b, y. split_and!; [reflexivity..|].
  unfold backpropagate, topological_sort.
  rewrite (visit_node y) by ids_solver.
  change (parents y) with [a; b]. rewrite !visit_all_cons, visit_all_nil.
  rewrite (visit_node a) by ids_solver.
  change (parents a) with [x; c2]. rewrite !visit_all_cons, visit_all_nil.
  rewrite (visit_leaf x) by ids_solver.
  rewrite (visit_leaf c2) by ids_solver.
  cbn [fst snd].
  rewrite (visit_node b) by ids_solver.
  change (parents b) with [x; c3]. rewrite !visit_all_cons, visit_all_nil.
  rewrite (visit_seen x) by ids_solver.
  rewrite (visit_leaf c3) by ids_solver.
  cbn [fst snd app reverse rev_append backprop_loop].
  change (unique_id y) with (4 + n).
  rewrite (backprop_step_node y _ _ 1%float [(a, 1%float); (b, 1%float)]);
    [|lookup_solver|done|done].
  cbn [mbind result_bind fold_left].
  rewrite (add_parent_deriv_new _ a) by lookup_solver.
  rewrite (add_parent_deriv_new _ b) by lookup_solver.
  rewrite (backprop_step_node b _ _ 1%float
             [(x, PrimFloat.mul 3%float 1%float);
              (c3, PrimFloat.mul (data x) 1%float)]);
    [|lookup_solver|done|done].
  cbn [mbind result_bind fold_left].
  rewrite (add_parent_deriv_new _ x) by lookup_solver.
  rewrite (add_parent_deriv_new _ c3) by lookup_solver.
  rewrite (backprop_step_leaf c3 _ _ (PrimFloat.mul (data x) 1%float))
    by (lookup_solver || done).
  cbn [mbind result_bind].
  rewrite (backprop_step_node a _ _ 1%float
             [(x, PrimFloat.mul 2%float 1%float);
              (c2, PrimFloat.mul (data x) 1%float)]);
    [|lookup_solver|done|done].
  cbn [mbind result_bind fold_left].
  rewrite (add_parent_deriv_old _ x _ (PrimFloat.mul 3%float 1%float))
    by lookup_solver.
  rewrite (add_parent_deriv_new _ c2) by lookup_solver.
  rewrite (backprop_step_leaf c2 _ _ (PrimFloat.mul (data x) 1%float))
    by (lookup_solver || done).
  cbn [mbind result_bind].
  rewrite (backprop_step_leaf x _ _ 5%float) by (lookup_solver || done).
  cbn [mbind result_bind snd].
  eexists. split; [reflexivity|].
  rewrite accumulate_derivative_lookup.
  by rewrite !accumulate_derivative_frame by (cbn; lia).
Qed.

Lemma add_parent_deriv_lookup (D : gmap nat float) (p : Scalar) (d : float) :
  add_parent_deriv D (p, d) !! unique_id p
  = Some (match D !! unique_id p with
          | None => d
          | Some old => PrimFloat.add old d
          end).
Proof.
  unfold add_parent_deriv.
  destruct (D !! unique_id p); by rewrite lookup_insert_eq.
Qed.

Lemma add_parent_deriv_frame (D : gmap nat float) (p : Scalar) (d : float) (i : nat) :
  unique_id p ≠ i → add_parent_deriv D (p, d) !! i = D !! i.
Proof.
  intros Hne. unfold add_parent_deriv.
  destruct (D !! unique_id p); by rewrite lookup_insert_ne.
Qed.

(** C1. Fan-out summation.  Let [x] be a leaf built earlier, with no
    derivative accumulated yet.  For [y = Add.apply(x, x)],
    [backpropagate y 1.0] leaves [x.derivative = 2.0].  For the diamond
    [a = x * 2.0], [b = x * 3.0], [y = a + b], it leaves
    [x.derivative = 5.0], the sum over both paths.  In the derivative map,
    a contribution to a parent that has an entry is added to that entry, a
    contribution to a parent that has none is stored, and no other entry
    changes. *)
Theorem fan_out_summation (x : Scalar) (n : nat) (store : gmap nat float) :
  is_constant x = false → is_leaf x = true → unique_id x < n →
  store !! unique_id x = None →
  (∃ y store',
     apply Add [IsScalar x; IsScalar x] n = (Ok y, S n)
     ∧ parents y = [x; x]
     ∧ backpropagate y 1%float store = Ok store'
     ∧ store' !! unique_id x = Some 2%float)
  ∧ (∃ a b y store',
       apply Mul [IsScalar x; IsFloat 2%float] n = (Ok a, 2 + n)
       ∧ apply Mul [IsScalar x; IsFloat 3%float] (2 + n) = (Ok b, 4 + n)
       ∧ apply Add [IsScalar a; IsScalar b] (4 + n) = (Ok y, 5 + n)
       ∧ backpropagate y 1%float store = Ok store'
       ∧ store' !! unique_id x = Some 5%float)
  ∧ (∀ (D : gmap nat float) p d old,
       D !! unique_id p = Some old →
       add_parent_deriv D (p, d) !! unique_id p = Some (PrimFloat.add old d))
  ∧ (∀ (D : gmap nat float) p d,
       D !! unique_id p = None →
       add_parent_deriv D (p, d) !! unique_id p = Some d)
  ∧ (∀ (D : gmap nat float) p d i,
       unique_id p ≠ i → add_parent_deriv D (p, d) !! i = D !! i).
Proof.
  intros Hc Hl Hlt Hstore. split_and!.
  - destruct (backpropagate_add_self x n store Hc Hl Hlt) as (y & Hy & Hp & Hrun).
    exists y, (accumulate_derivative x 2%float store).
    split_and!; [done..|].
    by rewrite accumulate_derivative_lookup, Hstore.
  - destruct (backpropagate_diamond x n store Hc Hl Hlt)
      as (a & b & y & Ha & Hb & Hy & store' & Hrun & Hx).
    exists a, b, y, store'. split_and!; [done..|].
    by rewrite Hx, Hstore.
  - intros D p d old HD. by rewrite add_parent_deriv_lookup, HD.
  - intros D p d HD. by rewrite add_parent_deriv_lookup, HD.
  - intros D p d i. apply add_parent_deriv_frame.
Qed.

Lemma fan_out_summation_witness :
  is_constant Graphs.x = false ∧ is_leaf Graphs.x = true
  ∧ unique_id Graphs.x < 2
  ∧ (∅ : gmap nat float) !! unique_id Graphs.x = None
  ∧ (∃ y store',
       apply Add [IsScalar Graphs.x; IsScalar Graphs.x] 2 = (Ok y, 3)
       ∧ parents y = [Graphs.x; Graphs.x]
       ∧ backpropagate y 1%float ∅ = Ok store'
       ∧ store' !! unique_id Graphs.x = Some 2%float).
Proof.
  assert (unique_id Graphs.x < 2) as Hlt by (cbn; lia).
  split_and!; [reflexivity|reflexivity|exact Hlt|reflexivity|].
  exact (proj1 (fan_out_summation Graphs.x 2 ∅ eq_refl eq_refl Hlt eq_refl)).
Defined.

(** Overwriting instead of adding would give 1.0: the run on the concrete
    [y = x + x] computes 2.0. *)
Example y_backpropagate :
  backpropagate Graphs.y 1%float ∅ = Ok {[1 := 2%float]}.
Proof. vm_compute. reflexivity. Qed.

(** ** Claim C2 *)

Example scenario_topological_sort :
  topological_sort Scenario.c
  = [Scenario.two; Scenario.three; Scenario.s; Scenario.four; Scenario.c].
Proof. reflexivity. Qed.

(** C2. Concrete scenario.  [Add.apply(2.0, 3.0)] wraps 2.0 and 3.0 into
    the leaves [two] and [three] and returns [s]; [Mul.apply(s, 4.0)] wraps
    4.0 into the leaf [four] and returns [c], whose value is 20.0.  After
    [backpropagate c 1.0] on a store with no derivative yet, the
    derivatives of [two], [three] and [four] are 4.0, 4.0 and 5.0. *)
Theorem concrete_scenario :
  apply Add [IsFloat 2%float; IsFloat 3%float] 1 = (Ok Scenario.s, 4)
  ∧ apply Mul [IsScalar Scenario.s; IsFloat 4%float] 4 = (Ok Scenario.c, 6)
  ∧ data Scenario.c = 20%float
  ∧ data Scenario.two = 2%float ∧ is_leaf Scenario.two = true
  ∧ data Scenario.three = 3%float ∧ is_leaf Scenario.three = true
  ∧ data Scenario.four = 4%float ∧ is_leaf Scenario.four = true
  ∧ ∃ store',
      backpropagate Scenario.c 1%float ∅ = Ok store'
      ∧ store' !! unique_id Scenario.two = Some 4%float
      ∧ store' !! unique_id Scenario.three = Some 4%float
      ∧ store' !! unique_id Scenario.four = Some 5%float
      ∧ store' !! unique_id Scenario.s = None
      ∧ store' !! unique_id Scenario.c = None.
Proof.
  split_and!; try reflexivity.
  exists (<[4 := 5%float]> (<[2 := 4%float]> {[1 := 4%float]})).
  split_and!; reflexivity.
Qed.

(** ** Claim C5 *)

(** C5. Context saving semantics.  [save_for_backward] leaves the context
    as it is when [no_grad] is true; otherwise it sets [saved_values] to
    the given values, in order, and touches nothing else; a second call
    replaces what the first saved; [saved_tensors] is [saved_values]. *)
Theorem save_for_backward_semantics (self : Context) (values later : list float) :
  (no_grad self = true → save_for_backward self values = self)
  ∧ (no_grad self = false →
       saved_values (save_for_backward self values) = values
       ∧ no_grad (save_for_backward self values) = false
       ∧ saved_values (save_for_backward (save_for_backward self values) later)
         = later
       ∧ saved_tensors (save_for_backward (save_for_backward self values) later)
         = later)
  ∧ saved_tensors self = saved_values self
  ∧ saved_tensors (save_for_backward self values)
    = saved_values (save_for_backward self values).
Proof.
  unfold save_for_backward, saved_tensors.
  destruct self as [[] sv]; cbn; split_and!; done.
Qed.

Lemma save_for_backward_semantics_witness :
  no_grad (mkContext true [1%float]) = true
  ∧ save_for_backward (mkContext true [1%float]) [2%float; 3%float]
    = mkContext true [1%float]
  ∧ no_grad (mkContext false [1%float]) = false
  ∧ saved_values
      (save_for_backward
         (save_for_backward (mkContext false [1%float]) [2%float; 3%float])
         [4%float])
    = [4%float].
Proof.
  split_and!; [reflexivity| |reflexivity|].
  - exact (proj1 (save_for_backward_semantics (mkContext true [1%float])
                    [2%float; 3%float] []) eq_refl).
  - exact (proj1 (proj2 (proj2 (proj1 (proj2
             (save_for_backward_semantics (mkContext false [1%float])
                [2%float; 3%float] [4%float])) eq_refl)))).
Defined.

(** ** The arity of the primitives *)

Ltac destruct_binds H :=
  repeat match type of H with
         | context [mbind _ ?m] =>
             lazymatch m with
             | context [mbind _ _] => fail
             | _ => destruct m; cbn in H; try done
             end
         end.

Ltac arity_cases :=
  intros [g sv] inps c ctx' d x Hg; cbn in Hg; subst g;
  unfold _forward, _backward, save_for_backward; cbn;
  repeat (destruct inps as [|? inps]; try done); cbn;
  intros Hf; destruct_binds Hf; simplify_eq; cbn;
  intros Hb; destruct_binds Hb; by simplify_eq.

Lemma Add_respects_arity : respects_arity Add.
Proof. arity_cases. Qed.

Lemma Mul_respects_arity : respects_arity Mul.
Proof. arity_cases. Qed.

Lemma Inv_respects_arity : respects_arity Inv.
Proof. arity_cases. Qed.

Lemma Neg_respects_arity : respects_arity Neg.
Proof. arity_cases. Qed.

Lemma ReLU_respects_arity : respects_arity ReLU.
Proof. arity_cases. Qed.

Lemma LT_respects_arity : respects_arity LT.
Proof. arity_cases. Qed.

Lemma EQ_respects_arity : respects_arity EQ.
Proof. arity_cases. Qed.

Lemma Log_respects_arity (log : float → result float)
    (log_back : float → float → result float) :
  respects_arity (Log log log_back).
Proof. arity_cases. Qed.

Lemma Sigmoid_respects_arity (exp : float → result float) :
  respects_arity (Sigmoid exp).
Proof. arity_cases. Qed.

Lemma Exp_respects_arity (exp : float → result float) :
  respects_arity (Exp exp).
Proof. arity_cases. Qed.

(** ** [apply]: the loop over the arguments *)

Lemma wrapped_mono (n n' m m' : nat) (v : ScalarLike) (s : Scalar) :
  m ≤ n → n' ≤ m' → wrapped n n' v s → wrapped m m' v s.
Proof. destruct v; cbn; [done|]. intros ?? (? & ? & ?). split_and!; [done..|lia|lia]. Qed.

Lemma apply_wrap_fold (vals : list ScalarLike) (raw : list float)
    (scalars : list Scalar) (n : nat) :
  ∃ scalars' n',
    fold_left apply_wrap vals (raw, scalars, n)
    = (raw ++ (data <$> scalars'), scalars ++ scalars', n')
    ∧ n ≤ n'
    ∧ Forall2 (wrapped n n') vals scalars'.
Proof.
  revert raw scalars n.
  induction vals as [|v vals IH]; intros raw scalars n; cbn.
  - exists [], n. rewrite !app_nil_r. split_and!; [done..|constructor].
  - destruct v as [s|x]; cbn.
    + destruct (IH (raw ++ [data s]) (scalars ++ [s]) n)
        as (scalars' & n' & -> & Hn & Hall).
      exists (s :: scalars'), n'. cbn. rewrite <- !app_assoc.
      split_and!; [done..|by constructor].
    + destruct (IH (raw ++ [x]) (scalars ++ [MkScalar n x (Some bare_history)]) (S n))
        as (scalars' & n' & -> & Hn & Hall).
      exists (MkScalar n x (Some bare_history) :: scalars'), n'. cbn.
      rewrite <- !app_assoc.
      split_and!; [done|lia|].
      constructor; [cbn; split_and!; [done..|lia|lia]|].
      eapply Forall2_impl; [done|]. intros ??. apply wrapped_mono; lia.
Qed.

Lemma apply_inv (cls : ScalarFunction) (vals : list ScalarLike) (n : nat) :
  ∃ scalars n1,
    Forall2 (wrapped n n1) vals scalars
    ∧ n ≤ n1
    ∧ apply cls vals n =
      match _forward cls (mkContext false []) (data <$> scalars) with
      | Ok (PyFloat c, ctx') =>
          (Ok (MkScalar n1 c (Some (MkHistory (Some cls) (Some ctx') scalars))),
           S n1)
      | Ok (_, _) => (Raise AssertionError, n1)
      | Raise e => (Raise e, n1)
      end.
Proof.
  destruct (apply_wrap_fold vals [] [] n) as (scalars & n1 & Hfold & Hn & Hall).
  exists scalars, n1. split_and!; [done..|].
  unfold apply. rewrite Hfold. cbn.
  destruct (_forward cls _ _) as [[[c|xs|] ctx']|e]; done.
Qed.

(** A node built by [apply] from an operation that respects its arity has
    a chain rule that covers all its parents. *)
Lemma apply_chain_rule_covers (cls : ScalarFunction) (vals : list ScalarLike)
    (n n' : nat) (s : Scalar) :
  respects_arity cls → apply cls vals n = (Ok s, n') → chain_rule_covers s.
Proof.
  intros Harity Happly.
  destruct (apply_inv cls vals n) as (scalars & n1 & _ & _ & Heq).
  rewrite Happly in Heq.
  destruct (_forward cls _ _) as [[[c|xs|] ctx']|e] eqn:Hfwd; simplify_eq.
  intros d pairs (h & fn & c' & x & Hh & Hfn & Hc & Hx & ->)%chain_rule_inv.
  cbn in *. simplify_eq. cbn in *. simplify_eq.
  apply fst_zip.
  rewrite (Harity (mkContext false []) _ _ _ _ _ eq_refl Hfwd Hx).
  by rewrite length_fmap.
Qed.

(** ** Claim C6 *)

(** C6. Backward tuple normalization.  For every operation, [_backward] is
    [backward] followed by the one adaptation [wrap_tuple]: a single value
    becomes a 1-tuple, a tuple is used as it is, an exception passes
    through.  The chain rule pairs the adapted tuple with the inputs
    position by position.  For the ten primitives the adapted tuple has one
    entry per input [forward] took. *)
Theorem backward_adapter_uniform (cls : ScalarFunction) (c0 : Context)
    (d_out : float) :
  _backward cls c0 d_out
  = match backward cls c0 d_out with
    | Ok (Single v) => Ok [v]
    | Ok (Tuple xs) => Ok xs
    | Raise e => Raise e
    end
  ∧ (∀ v h x,
       history v = Some h → last_fn h = Some cls → ctx h = Some c0 →
       _backward cls c0 d_out = Ok x →
       chain_rule v d_out = Ok (zip (inputs h) x)
       ∧ ∀ i p g, inputs h !! i = Some p → x !! i = Some g →
                  zip (inputs h) x !! i = Some (p, g))
  ∧ (∀ log log_back exp,
       Forall respects_arity
         [Add; Log log log_back; Mul; Inv; Neg; Sigmoid exp; ReLU; Exp exp;
          LT; EQ]).
Proof.
  split_and!.
  - unfold _backward. by destruct (backward cls c0 d_out) as [[v|xs]|e].
  - intros v h x Hh Hfn Hc Hx. split.
    + unfold chain_rule. by rewrite Hh, Hfn, Hc, Hx.
    + intros i p g Hp Hg. apply lookup_zip_with_Some. eauto.
  - intros log log_back exp.
    repeat constructor;
      auto using Add_respects_arity, Log_respects_arity, Mul_respects_arity,
        Inv_respects_arity, Neg_respects_arity, Sigmoid_respects_arity,
        ReLU_respects_arity, Exp_respects_arity, LT_respects_arity,
        EQ_respects_arity.
Qed.

Lemma backward_adapter_uniform_witness :
  history Graphs.z = Some (MkHistory (Some Mul)
                             (Some (mkContext false [7%float; 3%float]))
                             [Graphs.x; Graphs.k])
  ∧ _backward Mul (mkContext false [7%float; 3%float]) 1%float
    = Ok [3%float; 7%float]
  ∧ chain_rule Graphs.z 1%float
    = Ok [(Graphs.x, 3%float); (Graphs.k, 7%float)]
  ∧ _backward Neg (mkContext false []) 1%float = Ok [(-1)%float].
Proof.
  split_and!; [reflexivity|reflexivity| |].
  - exact (proj1 (proj1 (proj2
             (backward_adapter_uniform Mul (mkContext false [7%float; 3%float])
                1%float))
             Graphs.z _ [3%float; 7%float] eq_refl eq_refl eq_refl eq_refl)).
  - exact (proj1 (backward_adapter_uniform Neg (mkContext false []) 1%float)).
Defined.

(** ** Claim C7 *)

(** C7. Contract-violation halt in [apply].  [apply cls vals] turns the
    arguments into the scalars [scalars], keeping each [Scalar] and wrapping
    each bare float into a new leaf, then calls [forward] on their values
    with a new context.  When [forward] returns an object that is not a
    float, [apply] raises [AssertionError] and builds no result node: the
    counter stands where the wrapping left it.  When [forward] raises,
    [apply] raises the same.  When [forward] returns the float [x],
    [apply] returns a new node of value [x] whose history holds the
    operation, the context as [forward] left it, and [scalars]. *)
Theorem apply_halts_on_contract_violation (cls : ScalarFunction)
    (vals : list ScalarLike) (n : nat) :
  ∃ scalars n1,
    Forall2 (wrapped n n1) vals scalars
    ∧ n ≤ n1
    ∧ (∀ c ctx',
         _forward cls (mkContext false []) (data <$> scalars) = Ok (c, ctx') →
         isinstance_float c = false →
         apply cls vals n = (Raise AssertionError, n1))
    ∧ (∀ e,
         _forward cls (mkContext false []) (data <$> scalars) = Raise e →
         apply cls vals n = (Raise e, n1))
    ∧ (∀ x ctx',
         _forward cls (mkContext false []) (data <$> scalars)
         = Ok (PyFloat x, ctx') →
         apply cls vals n
         = (Ok {| unique_id := n1; data := x;
                  history := Some {| last_fn := Some cls; ctx := Some ctx';
                                     inputs := scalars |} |},
            S n1)).
Proof.
  destruct (apply_inv cls vals n) as (scalars & n1 & Hall & Hn & Heq).
  exists scalars, n1. split_and!; [done..| | |].
  - intros c ctx' Hf Hc. rewrite Heq, Hf. by destruct c.
  - intros e Hf. by rewrite Heq, Hf.
  - intros x ctx' Hf. by rewrite Heq, Hf.
Qed.

Lemma apply_halts_on_contract_violation_witness :
  ∃ n1,
    apply BadPair [IsFloat 2%float; IsScalar Graphs.x] 2
    = (Raise AssertionError, n1).
Proof.
  destruct (apply_halts_on_contract_violation BadPair
              [IsFloat 2%float; IsScalar Graphs.x] 2)
    as (scalars & n1 & _ & _ & Hbad & _).
  exists n1. eapply Hbad; reflexivity.
Defined.

Example apply_BadPair :
  apply BadPair [IsFloat 2%float; IsScalar Graphs.x] 2
  = (Raise AssertionError, 3).
Proof. reflexivity. Qed.

Example apply_Add_arity :
  apply Add [IsFloat 2%float] 2 = (Raise TypeError, 3).
Proof. reflexivity. Qed.

(** ** Claim C8 *)

Lemma index_in_range {A : Type} (l : list A) (i : nat) :
  i < length l → Py.index l (Z.of_nat i) = Ok i.
Proof.
  intros Hi. unfold Py.index.
  rewrite (proj2 (Z.leb_le _ _)) by lia.
  rewrite (proj2 (Z.ltb_lt _ _)) by lia.
  cbn. by rewrite Nat2Z.id.
Qed.

Lemma alter_as_insert {A : Type} (g : A → A) (l : list A) (i : nat) (x : A) :
  l !! i = Some x → alter g i l = <[i := g x]> l.
Proof.
  intros Hx. apply list_eq. intros j.
  destruct (decide (i = j)) as [<-|Hne].
  - rewrite list_lookup_alter_eq, Hx.
    by rewrite list_lookup_insert_eq by by eapply lookup_lt_Some.
  - by rewrite list_lookup_alter_ne, list_lookup_insert_ne.
Qed.

(** C8. Central difference.  For an index [arg] within the arguments, with
    [x] the argument at [arg], [central_difference] evaluates [f] on the
    arguments with [x + epsilon] at [arg], then on the arguments with
    [x - epsilon] at [arg], and divides the difference of the two results
    by [2 * epsilon], with Python's division.  So when [f] returns [fp] and
    [fm] there and [2 * epsilon] is not zero, it returns
    [(fp - fm) / (2 * epsilon)].  The two argument lists differ from the
    given one at position [arg] only.  The function is defined on floats
    and [f] alone: nothing of the graph occurs in it. *)
Theorem central_difference_formula (f : list float → result float)
    (vals : list float) (arg : nat) (epsilon x : float) :
  vals !! arg = Some x →
  central_difference f vals (Z.of_nat arg) epsilon
  = (fp ← f (<[arg := PrimFloat.add x epsilon]> vals) ;
     fm ← f (<[arg := PrimFloat.sub x epsilon]> vals) ;
     Py.truediv (PrimFloat.sub fp fm) (PrimFloat.mul 2%float epsilon))
  ∧ (∀ fp fm,
       f (<[arg := PrimFloat.add x epsilon]> vals) = Ok fp →
       f (<[arg := PrimFloat.sub x epsilon]> vals) = Ok fm →
       PrimFloat.eqb (PrimFloat.mul 2%float epsilon) 0%float = false →
       central_difference f vals (Z.of_nat arg) epsilon
       = Ok (PrimFloat.div (PrimFloat.sub fp fm)
               (PrimFloat.mul 2%float epsilon)))
  ∧ (∀ j, j ≠ arg →
       <[arg := PrimFloat.add x epsilon]> vals !! j = vals !! j
       ∧ <[arg := PrimFloat.sub x epsilon]> vals !! j = vals !! j)
  ∧ <[arg := PrimFloat.add x epsilon]> vals !! arg
    = Some (PrimFloat.add x epsilon)
  ∧ <[arg := PrimFloat.sub x epsilon]> vals !! arg
    = Some (PrimFloat.sub x epsilon).
Proof.
  intros Hx.
  assert (arg < length vals) as Harg by by eapply lookup_lt_Some.
  assert (central_difference f vals (Z.of_nat arg) epsilon
          = (fp ← f (<[arg := PrimFloat.add x epsilon]> vals) ;
             fm ← f (<[arg := PrimFloat.sub x epsilon]> vals) ;
             Py.truediv (PrimFloat.sub fp fm) (PrimFloat.mul 2%float epsilon)))
    as Heq.
  { unfold central_difference. rewrite index_in_range by done. cbn.
    by rewrite !(alter_as_insert _ _ _ _ Hx). }
  split_and!.
  - done.
  - intros fp fm Hfp Hfm Heps. rewrite Heq, Hfp. cbn. rewrite Hfm. cbn.
    unfold Py.truediv, Py.zero. by rewrite Heps.
  - intros j Hj. by rewrite !list_lookup_insert_ne.
  - by rewrite list_lookup_insert_eq.
  - by rewrite list_lookup_insert_eq.
Qed.

Lemma central_difference_formula_witness :
  [3%float; 4%float] !! 0 = Some 3%float
  ∧ central_difference product [3%float; 4%float] (Z.of_nat 0) 0.5%float
    = Ok 4%float.
Proof.
  split; [reflexivity|].
  exact (proj1 (central_difference_formula product [3%float; 4%float] 0
                  0.5%float 3%float eq_refl)).
Defined.

(** [f(a, b) = a * b] at [(3.0, 4.0)], differentiated in its first
    argument with [epsilon = 0.5]: [(3.5 * 4 - 2.5 * 4) / 1 = 4]. *)
Example central_difference_value :
  central_difference product [3%float; 4%float] 0 0.5%float = Ok 4%float.
Proof. reflexivity. Qed.

(** Outside the claim's range: an index past the end, a zero step. *)
Example central_difference_index_error :
  central_difference product [3%float; 4%float] 2 0.5%float = Raise IndexError.
Proof. reflexivity. Qed.

Example central_difference_zero_step :
  central_difference product [3%float; 4%float] 0 0%float
  = Raise ZeroDivisionError.
Proof. reflexivity. Qed.

(** ** Claim C10 *)

(** The run on a node [y] with two distinct leaves [x] and [w] as inputs. *)
Lemma backpropagate_binary (fn : ScalarFunction) (c0 : Context) (x w : Scalar)
    (n : nat) (v d gx gw : float) (store : gmap nat float) :
  is_constant x = false → is_leaf x = true →
  is_constant w = false → is_leaf w = true →
  unique_id x < n → unique_id w < n → unique_id x ≠ unique_id w →
  chain_rule (MkScalar n v (Some (MkHistory (Some fn) (Some c0) [x; w]))) d
  = Ok [(x, gx); (w, gw)] →
  backpropagate (MkScalar n v (Some (MkHistory (Some fn) (Some c0) [x; w])))
    d store
  = Ok (accumulate_derivative x gx (accumulate_derivative w gw store)).
Proof.
  intros Hxc Hxl Hwc Hwl Hxn Hwn Hne Hchain.
  set (y := MkScalar n v _) in *.
  unfold backpropagate, topological_sort.
  rewrite (visit_node y) by ids_solver.
  change (parents y) with [x; w]. rewrite !visit_all_cons, visit_all_nil.
  rewrite (visit_leaf x) by ids_solver.
  rewrite (visit_leaf w) by ids_solver.
  cbn [fst snd app reverse rev_append backprop_loop].
  change (unique_id y) with n.
  rewrite (backprop_step_node y _ _ d [(x, gx); (w, gw)]);
    [|lookup_solver|done|done].
  cbn [mbind result_bind fold_left].
  rewrite (add_parent_deriv_new _ x) by lookup_solver.
  rewrite (add_parent_deriv_new _ w) by lookup_solver.
  rewrite (backprop_step_leaf w _ _ gw) by (lookup_solver || done).
  cbn [mbind result_bind].
  rewrite (backprop_step_leaf x _ _ gx) by (lookup_solver || done).
  done.
Qed.

(** C10. Comparisons block gradients.  For every context and every
    upstream derivative, [LT.backward] and [EQ.backward] return
    [(0.0, 0.0)].  So for a less-than or equality node built by [apply] on
    two leaves, the chain rule contributes 0.0 to each input whatever the
    seed and the input values, and [backpropagate] accumulates 0.0 into
    each. *)
Theorem comparisons_block_gradients :
  (∀ c0 d_output,
     backward LT c0 d_output = Ok (Tuple [0%float; 0%float])
     ∧ backward EQ c0 d_output = Ok (Tuple [0%float; 0%float]))
  ∧ (∀ cls v h c0 a b d_output,
       cls = LT ∨ cls = EQ →
       history v = Some h → last_fn h = Some cls → ctx h = Some c0 →
       inputs h = [a; b] →
       chain_rule v d_output = Ok [(a, 0%float); (b, 0%float)])
  ∧ (∀ cls x w n d_output (store : gmap nat float),
       cls = LT ∨ cls = EQ →
       is_constant x = false → is_leaf x = true →
       is_constant w = false → is_leaf w = true →
       unique_id x < n → unique_id w < n → unique_id x ≠ unique_id w →
       ∃ y,
         apply cls [IsScalar x; IsScalar w] n = (Ok y, S n)
         ∧ parents y = [x; w]
         ∧ chain_rule y d_output = Ok [(x, 0%float); (w, 0%float)]
         ∧ backpropagate y d_output store
           = Ok (accumulate_derivative x 0%float
                   (accumulate_derivative w 0%float store))).
Proof.
  split_and!.
  - done.
  - intros cls v h c0 a b d Hcls Hh Hfn Hc Hin.
    unfold chain_rule. rewrite Hh, Hfn, Hc, Hin. by destruct Hcls as [-> | ->].
  - intros cls x w n d store Hcls Hxc Hxl Hwc Hwl Hxn Hwn Hne.
    destruct Hcls as [-> | ->].
    + eexists. split_and!; [reflexivity..|].
      by apply backpropagate_binary.
    + eexists. split_and!; [reflexivity..|].
      by apply backpropagate_binary.
Qed.

Lemma comparisons_block_gradients_witness :
  is_constant Graphs.x = false ∧ is_leaf Graphs.x = true
  ∧ is_constant Graphs.w = false ∧ is_leaf Graphs.w = true
  ∧ unique_id Graphs.x < 3 ∧ unique_id Graphs.w < 3
  ∧ unique_id Graphs.x ≠ unique_id Graphs.w
  ∧ ∃ y,
      apply LT [IsScalar Graphs.x; IsScalar Graphs.w] 3 = (Ok y, 4)
      ∧ parents y = [Graphs.x; Graphs.w]
      ∧ chain_rule y 5%float = Ok [(Graphs.x, 0%float); (Graphs.w, 0%float)]
      ∧ backpropagate y 5%float ∅
        = Ok (accumulate_derivative Graphs.x 0%float
                (accumulate_derivative Graphs.w 0%float ∅)).
Proof.
  assert (unique_id Graphs.x < 3) as Hx by (cbn; lia).
  assert (unique_id Graphs.w < 3) as Hw by (cbn; lia).
  assert (unique_id Graphs.x ≠ unique_id Graphs.w) as Hne by (cbn; lia).
  split_and!; [reflexivity..|exact Hx|exact Hw|exact Hne|].
  exact (proj2 (proj2 comparisons_block_gradients) LT Graphs.x Graphs.w 3
           5%float ∅ (or_introl eq_refl) eq_refl eq_refl eq_refl eq_refl
           Hx Hw Hne).
Defined.

Example lt_backpropagate :
  ∀ y, apply LT [IsScalar Graphs.x; IsScalar Graphs.w] 3 = (Ok y, 4) →
       data y = 1%float
       ∧ backpropagate y 5%float ∅ = Ok (<[1 := 0%float]> {[2 := 0%float]}).
Proof. intros y [= <-]. split; [reflexivity|]. vm_compute. reflexivity. Qed.

(** ** Graphs built by [apply] *)

Lemma apply_wrap_wraps (vals : list ScalarLike) (raw : list float)
    (scalars : list Scalar) (n : nat) :
  ∃ ss fr n',
    fold_left apply_wrap vals (raw, scalars, n)
    = (raw ++ (data <$> ss), scalars ++ ss, n')
    ∧ wraps n vals ss fr n'.
Proof.
  revert raw scalars n.
  induction vals as [|[s|x] vals IH]; intros raw scalars n; cbn.
  - exists [], [], n. rewrite !app_nil_r. split; [done|constructor].
  - destruct (IH (raw ++ [data s]) (scalars ++ [s]) n) as (ss & fr & n' & -> & Hw).
    exists (s :: ss), fr, n'. cbn. rewrite <- !app_assoc.
    split; [done|by constructor].
  - destruct (IH (raw ++ [x]) (scalars ++ [MkScalar n x (Some bare_history)]) (S n))
      as (ss & fr & n' & -> & Hw).
    exists (MkScalar n x (Some bare_history) :: ss),
           (MkScalar n x (Some bare_history) :: fr), n'.
    cbn. rewrite <- !app_assoc.
    split; [done|by constructor].
Qed.

Lemma wraps_fresh (n n' : nat) (vals : list ScalarLike) (ss fr : list Scalar) :
  wraps n vals ss fr n' →
  n ≤ n'
  ∧ (∀ a, a ∈ fr → history a = Some bare_history ∧ n ≤ unique_id a < n')
  ∧ NoDup (unique_id <$> fr)
  ∧ (∀ a, a ∈ ss → IsScalar a ∈ vals ∨ a ∈ fr).
Proof.
  induction 1 as [n|n s vals ss fr n' _ (Hn & Hfr & Hnd & Hss)
                  |n x vals ss fr n' _ (Hn & Hfr & Hnd & Hss)].
  - split_and!; [done| |constructor|]; by intros a ?%elem_of_nil.
  - split_and!; [done..|].
    intros a [->|Ha]%elem_of_cons; [left; left|].
    destruct (Hss a Ha); [left; by right|by right].
  - split_and!; [lia| | |].
    + intros a [->|Ha]%elem_of_cons; [cbn; split; [done|lia]|].
      destruct (Hfr a Ha). split; [done|lia].
    + cbn. constructor; [|done].
      intros (a & Hid & Ha)%list_elem_of_fmap. destruct (Hfr a Ha). cbn in *. lia.
    + intros a [->|Ha]%elem_of_cons; [right; left|].
      destruct (Hss a Ha); [left; by right|right; by right].
Qed.

Lemma universe_reaches (U : Scalar → Prop) (n : nat) (root a : Scalar) :
  universe_ok U n → U root → reaches root a → U a.
Proof.
  intros (_ & _ & Hclosed) Hroot Hreach.
  induction Hreach as [|a b c Hab _ IH]; [done|]. apply IH. by eapply Hclosed.
Qed.

Lemma universe_unique_ids (U : Scalar → Prop) (n : nat) (root : Scalar) :
  universe_ok U n → U root → unique_ids root.
Proof.
  intros HU Hroot a b Ha Hb.
  pose proof HU as (Huniq & _). apply Huniq; by eapply universe_reaches.
Qed.

Lemma apply_wraps_inv (cls : ScalarFunction) (vals : list ScalarLike)
    (n n' : nat) (s : Scalar) :
  apply cls vals n = (Ok s, n') →
  ∃ ss fr n1 x ctx',
    wraps n vals ss fr n1
    ∧ _forward cls (mkContext false []) (data <$> ss) = Ok (PyFloat x, ctx')
    ∧ s = MkScalar n1 x (Some (MkHistory (Some cls) (Some ctx') ss))
    ∧ n' = S n1.
Proof.
  unfold apply.
  destruct (apply_wrap_wraps vals [] [] n) as (ss & fr & n1 & -> & Hw). cbn.
  destruct (_forward cls _ _) as [[[x|xs|] ctx']|e] eqn:Hf; cbn; intros [= <- <-].
  by exists ss, fr, n1, x, ctx'.
Qed.

(** [apply] keeps the ids unique: the nodes it builds take ids the
    counter has not given out. *)
Lemma apply_universe (U : Scalar → Prop) (cls : ScalarFunction)
    (vals : list ScalarLike) (n n' : nat) (s : Scalar) :
  universe_ok U n →
  (∀ s0, IsScalar s0 ∈ vals → U s0) →
  apply cls vals n = (Ok s, n') →
  universe_ok (extended U s) n' ∧ n < n'.
Proof.
  intros (Huniq & Hbound & Hclosed) Hvals
    (ss & fr & n1 & x & ctx' & Hw & _ & -> & ->)%apply_wraps_inv.
  apply wraps_fresh in Hw as (Hn & Hfr & Hnd & Hss).
  set (s := MkScalar n1 x _).
  assert (∀ a, extended U s a →
            U a ∨ a = s ∨ a ∈ fr) as Hcases.
  { intros a [?|[?|Ha]]; [by left|by right; left|].
    destruct (Hss a Ha) as [?%Hvals|?]; [by left|by right; right]. }
  split; [|lia]. split_and!.
  - intros a b Ha%Hcases Hb%Hcases Hid.
    destruct Ha as [Ha|[->|Ha]], Hb as [Hb|[->|Hb]];
      try specialize (Hbound _ Ha); try specialize (Hbound _ Hb);
      try (destruct (Hfr _ Ha) as [Hha ?]); try (destruct (Hfr _ Hb) as [Hhb ?]);
      cbn in *; try lia; try done.
    + by apply Huniq.
    + apply (NoDup_fmap_1 unique_id) in Hnd as Hnd'.
      apply list_elem_of_lookup in Ha as [i Hi], Hb as [j Hj].
      assert (i = j) as ->.
      { eapply NoDup_lookup; [exact Hnd| |];
          rewrite list_lookup_fmap; [by rewrite Hi|by rewrite Hj, Hid]. }
      congruence.
  - intros a [Ha|[->|Ha]]%Hcases.
    + specialize (Hbound _ Ha). lia.
    + cbn. lia.
    + destruct (Hfr _ Ha). lia.
  - intros a p [Ha|[->|Ha]]%Hcases Hp.
    + left. by eapply Hclosed.
    + by right; right.
    + destruct (Hfr _ Ha) as [Hh _]. unfold parents in Hp. rewrite Hh in Hp.
      by apply elem_of_nil in Hp.
Qed.

(** [apply] keeps the contract of [backward] when the operation respects
    its arity. *)
Lemma apply_covers (U : Scalar → Prop) (cls : ScalarFunction)
    (vals : list ScalarLike) (n n' : nat) (s : Scalar) :
  respects_arity cls →
  (∀ a, U a → chain_rule_covers a) →
  (∀ s0, IsScalar s0 ∈ vals → U s0) →
  apply cls vals n = (Ok s, n') →
  ∀ a, extended U s a → chain_rule_covers a.
Proof.
  intros Harity HU Hvals Happly a [Ha|[->|Ha]]; [by apply HU| |].
  - by eapply apply_chain_rule_covers.
  - apply apply_wraps_inv in Happly
      as (ss & fr & n1 & x & ctx' & Hw & _ & -> & ->).
    apply wraps_fresh in Hw as (_ & Hfr & _ & Hss).
    destruct (Hss a Ha) as [?%Hvals|Hnew]; [by apply HU|].
    apply chain_rule_covers_leaf. destruct (Hfr a Hnew) as [Hh _].
    unfold is_leaf. by rewrite Hh.
Qed.

(** Nothing built: the empty universe, with the counter at its initial
    value. *)
Lemma universe_empty : universe_ok (λ _, False) 1.
Proof. by split_and!. Qed.

(** A root among the nodes built so far meets the assumptions of the
    theorems on [topological_sort] and [backpropagate]. *)
Lemma universe_graph (U : Scalar → Prop) (n : nat) (root : Scalar) :
  universe_ok U n → (∀ a, U a → chain_rule_covers a) → U root →
  unique_ids root ∧ backward_contract root.
Proof.
  intros HU Hcov Hroot. split; [by eapply universe_unique_ids|].
  intros a Ha. apply Hcov. by eapply universe_reaches.
Qed.


(** * Further properties of the code *)

(** ** [wrap_tuple] and [unwrap_tuple] *)

(** X1. [wrap_tuple] undoes [unwrap_tuple] on every tuple.  In the other
    direction [unwrap_tuple] undoes [wrap_tuple] on every [backward] result
    except a 1-tuple, which comes back as its single value. *)
Theorem wrap_unwrap_round_trip (x : list float) (g : grads) :
  wrap_tuple (unwrap_tuple x) = x
  ∧ ((∀ v, g ≠ Tuple [v]) → unwrap_tuple (wrap_tuple g) = g)
  ∧ (∀ v, unwrap_tuple (wrap_tuple (Tuple [v])) = Single v)
  ∧ length (wrap_tuple (unwrap_tuple x)) = length x.
Proof.
  assert (wrap_tuple (unwrap_tuple x) = x) as Hx
    by (by destruct x as [|v [|w x]]).
  split_and!; [done| |done|by rewrite Hx].
  intros Hg. destruct g as [v|[|v [|w xs]]]; try done.
  by destruct (Hg v).
Qed.

Lemma wrap_unwrap_round_trip_witness :
  (∀ v, Tuple [1%float; 2%float] ≠ Tuple [v])
  ∧ unwrap_tuple (wrap_tuple (Tuple [1%float; 2%float]))
    = Tuple [1%float; 2%float].
Proof.
  assert (∀ v, Tuple [1%float; 2%float] ≠ Tuple [v]) as Hne by done.
  split; [exact Hne|].
  exact (proj1 (proj2 (wrap_unwrap_round_trip [] (Tuple [1%float; 2%float])))
           Hne).
Defined.

(** ** The primitives: results, arities, saved state *)

(** Splits a list of inputs by its length, up to three. *)
Ltac split_inputs inps :=
  destruct inps as [|? [|? [|? ?]]]; cbn in *; try done.

(** Case analysis on the calls a [forward] or [backward] makes, keeping
    what each call returned. *)
Ltac destruct_binds_eq H :=
  repeat match type of H with
         | context [mbind _ ?m] =>
             lazymatch m with
             | context [mbind _ _] => fail
             | _ => destruct m eqn:?; cbn in H; try done
             end
         end.

Ltac rewrite_binds :=
  repeat match goal with
         | E : ?m = Ok _ |- context [mbind _ ?m] => rewrite E; cbn
         end.



(** X3. Arity and domain errors of the primitives.  [forward] of [Add],
    [Mul], [LT], [EQ] raises [TypeError] unless it gets two inputs;
    [forward] of [Log], [Inv], [Neg], [Sigmoid], [ReLU], [Exp] raises
    [TypeError] unless it gets one.  [Inv.forward] raises
    [ZeroDivisionError] exactly when its input compares equal to zero. *)
Theorem primitives_arity_errors (log : float → result float)
    (log_back : float → float → result float) (exp : float → result float)
    (ctx0 : Context) (inps : list float) :
  (length inps ≠ 2 →
     ∀ cls, cls ∈ [Add; Mul; LT; EQ] → forward cls ctx0 inps = Raise TypeError)
  ∧ (length inps ≠ 1 →
       ∀ cls, cls ∈ [Log log log_back; Inv; Neg; Sigmoid exp; ReLU; Exp exp] →
              forward cls ctx0 inps = Raise TypeError)
  ∧ (∀ a, PrimFloat.eqb a 0%float = true ↔
          forward Inv ctx0 [a] = Raise ZeroDivisionError)
  ∧ (∀ a, PrimFloat.eqb a 0%float = false →
          forward Inv ctx0 [a]
          = Ok (PyFloat (PrimFloat.div 1%float a), save_for_backward ctx0 [a])).
Proof.
  split_and!.
  - intros Hlen cls Hcls. cases_elem Hcls; by split_inputs inps.
  - intros Hlen cls Hcls. cases_elem Hcls; by split_inputs inps.
  - intros a. cbn. unfold Py.truediv, Py.zero.
    destruct (PrimFloat.eqb a 0%float); cbn; split; done.
  - intros a Ha. cbn. unfold Py.truediv, Py.zero, Py.one. by rewrite Ha.
Qed.

Lemma primitives_arity_errors_witness :
  length [1%float] ≠ 2
  ∧ Mul ∈ [Add; Mul; LT; EQ]
  ∧ forward Mul (mkContext false []) [1%float] = Raise TypeError.
Proof.
  assert (length [1%float] ≠ 2) as Hlen by (cbn; lia).
  assert (Mul ∈ [Add; Mul; LT; EQ]) as Hin by set_solver.
  split_and!; [exact Hlen|exact Hin|].
  exact (proj1 (primitives_arity_errors Ok (λ _, Ok) Ok (mkContext false [])
                  [1%float]) Hlen Mul Hin).
Defined.

(** X4. Evaluation without gradients.  Under [no_grad] the [forward] of a
    primitive leaves the context as it was and returns the value it
    returns otherwise.  The [backward] of a primitive that unpacks saved
    values then raises [ValueError] on the context of a [Context(True)]
    forward call, while [Add], [Neg], [LT] and [EQ], which save nothing,
    differentiate on any context. *)
Theorem primitives_no_grad (log : float → result float)
    (log_back : float → float → result float) (exp : float → result float)
    (cls : ScalarFunction) (sv : list float) (inps : list float)
    (c : pyobj) (ctx' : Context) :
  cls ∈ primitives log log_back exp →
  forward cls (mkContext true sv) inps = Ok (c, ctx') →
  ctx' = mkContext true sv
  ∧ (∃ ctx'', forward cls (mkContext false sv) inps = Ok (c, ctx''))
  ∧ (cls ∈ saving_primitives log log_back exp → sv = [] →
       ∀ d, backward cls ctx' d = Raise ValueError)
  ∧ (cls ∈ [Add; Neg; LT; EQ] →
       ∀ d, ∃ g, backward cls ctx' d = Ok g
                 ∧ ∀ ctx1, backward cls ctx1 d = Ok g).
Proof.
  intros Hcls Hf.
  assert (ctx' = mkContext true sv) as ->.
  { unfold primitives in Hcls. cases_elem Hcls; split_inputs inps;
      destruct_binds Hf; by simplify_eq. }
  split_and!; [done| | |].
  - unfold primitives in Hcls. cases_elem Hcls; split_inputs inps;
      destruct_binds_eq Hf; simplify_eq; cbn; rewrite_binds; eauto.
  - intros Hsav -> d. unfold saving_primitives in Hsav.
    cases_elem Hsav; done.
  - intros Hfree d. cases_elem Hfree; by eexists.
Qed.

Lemma primitives_no_grad_witness :
  Mul ∈ primitives Ok (λ _, Ok) Ok
  ∧ forward Mul (mkContext true []) [2%float; 3%float]
    = Ok (PyFloat 6%float, mkContext true [])
  ∧ Mul ∈ saving_primitives Ok (λ _, Ok) Ok
  ∧ backward Mul (mkContext true []) 1%float = Raise ValueError.
Proof.
  assert (Mul ∈ primitives Ok (λ _, Ok) Ok) as Hin
    by (unfold primitives; set_solver).
  assert (Mul ∈ saving_primitives Ok (λ _, Ok) Ok) as Hsav
    by (unfold saving_primitives; set_solver).
  split_and!; [exact Hin|reflexivity|exact Hsav|].
  exact (proj1 (proj2 (proj2
           (primitives_no_grad Ok (λ _, Ok) Ok Mul [] [2%float; 3%float]
              (PyFloat 6%float) (mkContext true []) Hin eq_refl)))
           Hsav eq_refl 1%float).
Defined.

(** ** The chain rule of a node built by [apply] *)

Lemma apply_node_inv (cls : ScalarFunction) (vals : list ScalarLike)
    (n n' : nat) (s : Scalar) :
  apply cls vals n = (Ok s, n') →
  ∃ ss ctx',
    _forward cls (mkContext false []) (data <$> ss) = Ok (PyFloat (data s), ctx')
    ∧ history s = Some (MkHistory (Some cls) (Some ctx') ss).
Proof.
  intros (ss & fr & n1 & x & ctx' & _ & Hf & -> & _)%apply_wraps_inv.
  by exists ss, ctx'.
Qed.

(** Reduces a fact on a node built by [apply] to the shape of its inputs. *)
Ltac node_cases Happly :=
  apply apply_node_inv in Happly as (ss & ctx' & Hf & Hh);
  unfold parents, chain_rule; rewrite Hh; clear Hh;
  destruct ss as [|a [|b [|? ?]]]; cbn in Hf; try done;
  destruct_binds_eq Hf; simplify_eq; cbn;
  repeat match goal with
         | H : _ = data _ |- _ => rewrite <- H in *; clear H
         end.

(** X5. Sum and product rule.  A node built by [Add.apply] has two
    parents, holds the sum of their values, and its chain rule hands the
    upstream derivative to both.  A node built by [Mul.apply] holds the
    product, and its chain rule hands each parent the value of the other
    times the upstream derivative. *)
Theorem arithmetic_chain_rule (vals : list ScalarLike) (n n' : nat)
    (s : Scalar) (d : float) :
  (apply Add vals n = (Ok s, n') →
     ∃ a b, parents s = [a; b]
       ∧ data s = PrimFloat.add (data a) (data b)
       ∧ chain_rule s d = Ok [(a, d); (b, d)])
  ∧ (apply Mul vals n = (Ok s, n') →
       ∃ a b, parents s = [a; b]
         ∧ data s = PrimFloat.mul (data a) (data b)
         ∧ chain_rule s d
           = Ok [(a, PrimFloat.mul (data b) d); (b, PrimFloat.mul (data a) d)]).
Proof.
  split; intros Happly; node_cases Happly; by exists a, b.
Qed.

Lemma arithmetic_chain_rule_witness :
  apply Mul [IsScalar Graphs.x; IsScalar Graphs.k] 3 = (Ok Graphs.z, 4)
  ∧ ∃ a b, parents Graphs.z = [a; b]
      ∧ data Graphs.z = PrimFloat.mul (data a) (data b)
      ∧ chain_rule Graphs.z 2%float
        = Ok [(a, PrimFloat.mul (data b) 2%float);
              (b, PrimFloat.mul (data a) 2%float)].
Proof.
  split; [reflexivity|].
  exact (proj2 (arithmetic_chain_rule [IsScalar Graphs.x; IsScalar Graphs.k]
                  3 4 Graphs.z 2%float) eq_refl).
Defined.

(** X6. The unary primitives that differentiate at their input.  A node
    built by [apply] has one parent [a] and its chain rule returns, for
    [Neg], the negated upstream derivative; for [ReLU], the upstream
    derivative when [a] is positive and 0.0 otherwise; for [Inv],
    [-1.0 / (a * a)] times the upstream derivative, raising
    [ZeroDivisionError] when [a * a] is zero; for [Log], what
    [operators.log_back] returns at [a]. *)
Theorem unary_chain_rule (log : float → result float)
    (log_back : float → float → result float)
    (vals : list ScalarLike) (n n' : nat) (s : Scalar) (d : float) :
  (apply Neg vals n = (Ok s, n') →
     ∃ a, parents s = [a]
       ∧ data s = PrimFloat.opp (data a)
       ∧ chain_rule s d = Ok [(a, PrimFloat.opp d)])
  ∧ (apply ReLU vals n = (Ok s, n') →
       ∃ a, parents s = [a]
         ∧ data s = (if PrimFloat.ltb 0%float (data a) then data a else 0%float)
         ∧ chain_rule s d
           = Ok [(a, if PrimFloat.ltb 0%float (data a) then d else 0%float)])
  ∧ (apply Inv vals n = (Ok s, n') →
       ∃ a, parents s = [a]
         ∧ PrimFloat.eqb (data a) 0%float = false
         ∧ data s = PrimFloat.div 1%float (data a)
         ∧ chain_rule s d
           = (q ← Py.truediv (-1)%float (PrimFloat.mul (data a) (data a)) ;
              Ok [(a, PrimFloat.mul q d)]))
  ∧ (apply (Log log log_back) vals n = (Ok s, n') →
       ∃ a, parents s = [a]
         ∧ log (data a) = Ok (data s)
         ∧ chain_rule s d = (r ← log_back (data a) d ; Ok [(a, r)])).
Proof.
  split_and!; intros Happly; node_cases Happly.
  - by exists a.
  - by exists a.
  - exists a.
    match goal with H : Py.truediv _ _ = Ok _ |- _ => unfold Py.truediv in H end.
    destruct (PrimFloat.eqb (data a) Py.zero) eqn:Hz; simplify_eq.
    split_and!; [done..|].
    by destruct (Py.truediv _ _).
  - exists a. split_and!; [done..|]. by destruct (log_back (data a) d).
Qed.

Lemma unary_chain_rule_witness :
  apply ReLU [IsScalar Graphs.x] 3
  = (Ok (MkScalar 3 7%float
           (Some (MkHistory (Some ReLU) (Some (mkContext false [7%float]))
                    [Graphs.x]))), 4)
  ∧ ∃ a, parents (MkScalar 3 7%float
                    (Some (MkHistory (Some ReLU)
                             (Some (mkContext false [7%float])) [Graphs.x])))
         = [a]
      ∧ chain_rule (MkScalar 3 7%float
                      (Some (MkHistory (Some ReLU)
                               (Some (mkContext false [7%float])) [Graphs.x])))
          5%float
        = Ok [(a, if PrimFloat.ltb 0%float (data a) then 5%float else 0%float)].
Proof.
  split; [reflexivity|].
  destruct (proj1 (proj2 (unary_chain_rule Ok (λ _, Ok) [IsScalar Graphs.x]
                            3 4 _ 5%float)) eq_refl) as (a & Hp & _ & Hc).
  by exists a.
Defined.

(** X7. The primitives that differentiate at their output.  [Exp] and
    [Sigmoid] save the value they return, so the chain rule of a node built
    by [apply] is computed from the node's own value [v]: [v] times the
    upstream derivative for [Exp], and the upstream derivative times [v]
    times [1.0 - v] for [Sigmoid]. *)
Theorem output_chain_rule (exp : float → result float)
    (vals : list ScalarLike) (n n' : nat) (s : Scalar) (d : float) :
  (apply (Exp exp) vals n = (Ok s, n') →
     ∃ a, parents s = [a]
       ∧ exp (data a) = Ok (data s)
       ∧ chain_rule s d = Ok [(a, PrimFloat.mul (data s) d)])
  ∧ (apply (Sigmoid exp) vals n = (Ok s, n') →
       ∃ a e, parents s = [a]
         ∧ exp (PrimFloat.opp (data a)) = Ok e
         ∧ Py.truediv 1%float (PrimFloat.add 1%float e) = Ok (data s)
         ∧ chain_rule s d
           = Ok [(a, PrimFloat.mul (PrimFloat.mul d (data s))
                       (PrimFloat.sub 1%float (data s)))]).
Proof.
  split; intros Happly; node_cases Happly.
  - by exists a.
  - by eexists a, _.
Qed.

Lemma output_chain_rule_witness :
  apply (Exp Ok) [IsFloat 2%float] 5
  = (Ok (MkScalar 6 2%float
           (Some (MkHistory (Some (Exp Ok)) (Some (mkContext false [2%float]))
                    [MkScalar 5 2%float (Some bare_history)]))), 7)
  ∧ ∃ a, chain_rule
           (MkScalar 6 2%float
              (Some (MkHistory (Some (Exp Ok)) (Some (mkContext false [2%float]))
                       [MkScalar 5 2%float (Some bare_history)])))
           3%float
         = Ok [(a, PrimFloat.mul 2%float 3%float)].
Proof.
  split; [reflexivity|].
  destruct (proj1 (output_chain_rule Ok [IsFloat 2%float] 5 7 _ 3%float)
              eq_refl) as (a & _ & _ & Hc).
  by exists a.
Defined.

(** ** [topological_sort]: what it returns *)

(** A parent is never a parent of a constant: a node with parents has a
    history. *)
Lemma parents_not_constant (v p : Scalar) : p ∈ parents v → is_constant v = false.
Proof.
  unfold parents, is_constant. destruct (history v); [done|].
  by intros ?%elem_of_nil.
Qed.

(** Every node of the graph that is no constant stands in the order. *)
Lemma topological_sort_complete (root v : Scalar) :
  unique_ids root → reaches root v → is_constant v = false →
  v ∈ topological_sort root.
Proof.
  intros Huniq Hreach Hc.
  destruct (topological_sort_visits root)
    as (N & -> & (_ & _ & Hin & Hord & _) & Hlast).
  specialize (Hord Huniq). cbn in *.
  revert v Hreach Hc.
  apply (rtc_ind_r (λ v, is_constant v = false → v ∈ N)).
  - intros Hc. destruct (Hlast Hc) as [N' ->]. set_solver.
  - intros b c Hab Hbc IH Hc.
    assert (b ∈ N) as Hb.
    { apply IH. by eapply parents_not_constant. }
    apply list_elem_of_split in Hb as (l1 & l2 & ->).
    apply ordered_app in Hord as [_ [Hb _]].
    assert (unique_id c ∈ ids l1) as (q & Hq & Hid)%elem_of_ids
      by (specialize (Hb c Hbc Hc); set_solver).
    assert (q = c) as ->.
    { apply Huniq; [|by eapply rtc_r|done]. apply Hin. set_solver. }
    set_solver.
Qed.

(** X8. The order is the graph.  In a graph where the id determines the
    node, [topological_sort root] holds a node if and only if the node is
    reachable from the root through [history.inputs] and is not constant. *)
Theorem topological_sort_exact (root v : Scalar) :
  unique_ids root →
  v ∈ topological_sort root ↔ reaches root v ∧ is_constant v = false.
Proof.
  intros Huniq. split; [apply topological_sort_reaches|].
  intros [Hreach Hc]. by apply topological_sort_complete.
Qed.

Lemma topological_sort_exact_witness :
  unique_ids Graphs.z
  ∧ (Graphs.x ∈ topological_sort Graphs.z
     ↔ reaches Graphs.z Graphs.x ∧ is_constant Graphs.x = false).
Proof.
  split; [exact z_unique_ids|].
  exact (topological_sort_exact Graphs.z Graphs.x z_unique_ids).
Defined.

(** X9. The roots without parents.  [topological_sort] of a constant is
    empty; of a node that is no constant and has no parents it is that node
    alone; a root that is no constant stands last and nowhere else, and no
    other node of the order carries its id. *)
Theorem topological_sort_edge (root : Scalar) :
  (is_constant root = true → topological_sort root = [])
  ∧ (is_constant root = false → parents root = [] →
       topological_sort root = [root])
  ∧ (is_constant root = false →
       ∃ l, topological_sort root = l ++ [root] ∧ root ∉ l
            ∧ ∀ v, v ∈ l → unique_id v ≠ unique_id root).
Proof.
  split_and!.
  - intros Hc. unfold topological_sort. by rewrite visit_const.
  - intros Hc Hp. unfold topological_sort.
    rewrite visit_node by (done || set_solver). by rewrite Hp.
  - intros Hc.
    destruct (topological_sort_visits root)
      as (N & -> & (_ & Hnd & _) & Hlast).
    destruct (Hlast Hc) as [l ->]. exists l.
    rewrite fmap_app in Hnd. apply NoDup_app in Hnd as (_ & Hdis & _).
    assert (∀ v, v ∈ l → unique_id v ≠ unique_id root) as Hne.
    { intros v Hv Heq. apply (Hdis (unique_id v)).
      - by apply list_elem_of_fmap_2.
      - rewrite Heq. set_solver. }
    split_and!; [done| |done].
    intros Hroot. by apply (Hne root Hroot).
Qed.

Lemma topological_sort_edge_witness :
  is_constant Graphs.k = true ∧ topological_sort Graphs.k = []
  ∧ is_constant Graphs.x = false ∧ parents Graphs.x = []
  ∧ topological_sort Graphs.x = [Graphs.x].
Proof.
  split_and!; [reflexivity| |reflexivity|reflexivity|].
  - exact (proj1 (topological_sort_edge Graphs.k) eq_refl).
  - exact (proj1 (proj2 (topological_sort_edge Graphs.x)) eq_refl eq_refl).
Defined.

(** ** [backpropagate]: edge cases and frame *)

Lemma accumulate_derivative_is_Some (v : Scalar) (d : float)
    (H : gmap nat float) (i : nat) :
  is_Some (H !! i) ∨ i = unique_id v →
  is_Some (accumulate_derivative v d H !! i).
Proof.
  intros Hi. destruct (decide (unique_id v = i)) as [<-|Hne].
  - rewrite accumulate_derivative_lookup. by eexists.
  - rewrite accumulate_derivative_frame by done. destruct Hi; [done|congruence].
Qed.

Lemma backprop_loop_populates (vars : list Scalar) (D H D' H' : gmap nat float) :
  backprop_loop vars (D, H) = Ok (D', H') →
  (∀ i, is_Some (H !! i) → is_Some (H' !! i))
  ∧ (∀ v, v ∈ vars → is_leaf v = true → is_Some (H' !! unique_id v)).
Proof.
  revert D H. induction vars as [|var vars IH]; intros D H; cbn.
  - intros [= <- <-]. split; [done|]. by intros v ?%elem_of_nil.
  - destruct (backprop_step (D, H) var) as [[D1 H1]|] eqn:Hstep; [|done]. cbn.
    intros [Hkeep Hleaf]%IH.
    apply backprop_step_inv in Hstep
      as (deriv & _ & [(Hl & _ & ->)|(Hl & -> & _)]).
    + split.
      * intros i Hi. apply Hkeep, accumulate_derivative_is_Some. by left.
      * intros v [->|Hv]%elem_of_cons Hvl; [|by apply Hleaf].
        apply Hkeep, accumulate_derivative_is_Some. by right.
    + split; [done|].
      intros v [->|Hv]%elem_of_cons Hvl; [congruence|by apply Hleaf].
Qed.

(** X10. The roots without parents, backpropagated.  On a constant root
    [backpropagate] returns and writes nothing.  On a root that is no
    constant and has no parents it accumulates the seed into the root's
    derivative, so two calls with seeds [d1] and [d2] on a root with no
    derivative yet leave [d1 + d2]. *)
Theorem backpropagate_edge (root : Scalar) (d1 d2 : float)
    (store : gmap nat float) :
  (is_constant root = true → backpropagate root d1 store = Ok store)
  ∧ (is_constant root = false → parents root = [] →
       backpropagate root d1 store
       = Ok (accumulate_derivative root d1 store)
       ∧ (store !! unique_id root = None →
            ∃ store1 store2,
              backpropagate root d1 store = Ok store1
              ∧ store1 !! unique_id root = Some d1
              ∧ backpropagate root d2 store1 = Ok store2
              ∧ store2 !! unique_id root = Some (PrimFloat.add d1 d2))).
Proof.
  assert (∀ d st, is_constant root = false → parents root = [] →
            backpropagate root d st = Ok (accumulate_derivative root d st))
    as Hleaf.
  { intros d st Hc Hp. unfold backpropagate, topological_sort.
    rewrite visit_node by (done || set_solver). rewrite Hp. cbn.
    rewrite (backprop_step_leaf root _ _ d);
      [done|apply lookup_singleton_eq|by apply is_leaf_parents]. }
  split.
  - intros Hc. unfold backpropagate, topological_sort.
    by rewrite visit_const.
  - intros Hc Hp. split; [by apply Hleaf|].
    intros Hnone. eexists _, _. rewrite !Hleaf by done.
    split_and!; [done| |done|].
    + by rewrite accumulate_derivative_lookup, Hnone.
    + rewrite !accumulate_derivative_lookup. by rewrite Hnone.
Qed.

Lemma backpropagate_edge_witness :
  is_constant Graphs.x = false ∧ parents Graphs.x = []
  ∧ (∅ : gmap nat float) !! unique_id Graphs.x = None
  ∧ ∃ store1 store2,
      backpropagate Graphs.x 1%float ∅ = Ok store1
      ∧ store1 !! unique_id Graphs.x = Some 1%float
      ∧ backpropagate Graphs.x 2%float store1 = Ok store2
      ∧ store2 !! unique_id Graphs.x = Some (PrimFloat.add 1%float 2%float).
Proof.
  split_and!; [reflexivity..|].
  exact (proj2 (proj2 (backpropagate_edge Graphs.x 1%float 2%float ∅)
                  eq_refl eq_refl) eq_refl).
Defined.

(** X11. Nothing outside the graph is written.  After any call that
    returns, the derivative of every object whose id is not the id of a
    node of the graph is what it was before, and no derivative that was set
    has been unset. *)
Theorem backpropagate_frame (root : Scalar) (deriv : float)
    (store store' : gmap nat float) :
  backpropagate root deriv store = Ok store' →
  (∀ i, (∀ v, reaches root v → unique_id v ≠ i) → store' !! i = store !! i)
  ∧ (∀ i, is_Some (store !! i) → is_Some (store' !! i)).
Proof.
  intros (D & Hloop)%backpropagate_inv. split.
  - intros i Hi. eapply backprop_loop_frame; [done|].
    intros v Hv%elem_of_reverse%topological_sort_reaches _.
    apply Hi. by destruct Hv.
  - by apply backprop_loop_populates in Hloop as [? _].
Qed.

Lemma backpropagate_frame_witness :
  backpropagate Graphs.z 1%float {[9 := 4%float]}
  = Ok (<[1 := 3%float]> {[9 := 4%float]})
  ∧ (∀ i, (∀ v, reaches Graphs.z v → unique_id v ≠ i) →
          (<[1 := 3%float]> {[9 := 4%float]} : gmap nat float) !! i
          = ({[9 := 4%float]} : gmap nat float) !! i).
Proof.
  assert (backpropagate Graphs.z 1%float {[9 := 4%float]}
          = Ok (<[1 := 3%float]> {[9 := 4%float]})) as Hrun
    by (vm_compute; reflexivity).
  split; [exact Hrun|].
  exact (proj1 (backpropagate_frame Graphs.z 1%float _ _ Hrun)).
Defined.

(** X12. Every leaf gets a derivative.  In a graph where the id
    determines the node, after a call that returns, every node reachable
    from the root that is no constant and has no parents holds a
    derivative. *)
Theorem backpropagate_populates_leaves (root : Scalar) (deriv : float)
    (store store' : gmap nat float) (v : Scalar) :
  unique_ids root →
  backpropagate root deriv store = Ok store' →
  reaches root v → is_constant v = false → is_leaf v = true →
  is_Some (store' !! unique_id v).
Proof.
  intros Huniq (D & Hloop)%backpropagate_inv Hreach Hc Hl.
  apply backprop_loop_populates in Hloop as [_ Hleaf].
  apply Hleaf; [|done].
  apply elem_of_reverse. by apply topological_sort_complete.
Qed.

Lemma backpropagate_populates_leaves_witness :
  unique_ids Graphs.z
  ∧ backpropagate Graphs.z 1%float ∅ = Ok {[1 := 3%float]}
  ∧ reaches Graphs.z Graphs.x
  ∧ is_constant Graphs.x = false ∧ is_leaf Graphs.x = true
  ∧ is_Some (({[1 := 3%float]} : gmap nat float) !! unique_id Graphs.x).
Proof.
  assert (backpropagate Graphs.z 1%float ∅ = Ok {[1 := 3%float]}) as Hrun
    by (vm_compute; reflexivity).
  assert (reaches Graphs.z Graphs.x) as Hreach.
  { eapply rtc_l; [|apply rtc_refl]. cbn. set_solver. }
  split_and!; [exact z_unique_ids|exact Hrun|exact Hreach|reflexivity..|].
  exact (backpropagate_populates_leaves Graphs.z 1%float ∅ _ Graphs.x
           z_unique_ids Hrun Hreach eq_refl eq_refl).
Defined.

(** ** [apply]: the node it builds and the ids it takes *)

Lemma wraps_count (n n' : nat) (vals : list ScalarLike) (ss fr : list Scalar) :
  wraps n vals ss fr n' →
  n' = n + count_floats vals
  ∧ length ss = length vals
  ∧ Forall2 (wrapped n n') vals ss.
Proof.
  induction 1 as [n|n s vals ss fr n' _ (-> & Hlen & Hall)
                  |n x vals ss fr n' _ (-> & Hlen & Hall)]; cbn.
  - split_and!; [lia|done|constructor].
  - split_and!; [done|by rewrite Hlen|by constructor].
  - split_and!; [lia|by rewrite Hlen|].
    constructor; [cbn; split_and!; [done..|lia|lia]|].
    eapply Forall2_impl; [done|]. intros ??. apply wrapped_mono; lia.
Qed.

Lemma apply_outcome (cls : ScalarFunction) (vals : list ScalarLike) (n : nat) :
  ∃ ss fr n1,
    wraps n vals ss fr n1
    ∧ ((∃ e, apply cls vals n = (Raise e, n1))
       ∨ (∃ x ctx',
            apply cls vals n
            = (Ok (MkScalar n1 x (Some (MkHistory (Some cls) (Some ctx') ss))),
               S n1))).
Proof.
  unfold apply.
  destruct (apply_wrap_wraps vals [] [] n) as (ss & fr & n1 & -> & Hw). cbn.
  exists ss, fr, n1. split; [done|].
  destruct (_forward cls _ _) as [[[x|xs|] ctx']|e]; cbn; eauto.
Qed.

(** X13. What [apply] builds and what it costs.  The node [apply] returns
    is no constant, has one parent per argument, each a given [Scalar]
    or a new leaf holding the given float, and takes the id after the ids
    of the floats it wrapped: the counter ends one past the start plus the
    number of bare floats.  When [apply] raises, the floats have been
    wrapped all the same and the counter ends at the start plus their
    number. *)
Theorem apply_structure (cls : ScalarFunction) (vals : list ScalarLike)
    (n n' : nat) :
  (∀ s, apply cls vals n = (Ok s, n') →
     is_constant s = false
     ∧ length (parents s) = length vals
     ∧ Forall2 (wrapped n (unique_id s)) vals (parents s)
     ∧ unique_id s = n + count_floats vals
     ∧ n' = S (unique_id s))
  ∧ (∀ e, apply cls vals n = (Raise e, n') → n' = n + count_floats vals).
Proof.
  destruct (apply_outcome cls vals n)
    as (ss & fr & n1 & (-> & Hlen & Hall)%wraps_count & [[e He]|(x & ctx' & Hs)]).
  - split; [intros s Hs; congruence|]. intros e' He'. congruence.
  - split; [|intros e He; congruence].
    intros s Hs'. rewrite Hs in Hs'. simplify_eq. by cbn.
Qed.

Lemma apply_structure_witness :
  apply Mul [IsScalar Graphs.x; IsFloat 4%float] 5
  = (Ok (MkScalar 6 28%float
           (Some (MkHistory (Some Mul)
                    (Some (mkContext false [7%float; 4%float]))
                    [Graphs.x; MkScalar 5 4%float (Some bare_history)]))), 7)
  ∧ 6 = 5 + count_floats [IsScalar Graphs.x; IsFloat 4%float]
  ∧ apply Add [IsFloat 4%float] 5 = (Raise TypeError, 6)
  ∧ 6 = 5 + count_floats [IsFloat 4%float].
Proof.
  split_and!; [reflexivity| |reflexivity|].
  - exact (proj1 (proj2 (proj2 (proj2
             (proj1 (apply_structure Mul [IsScalar Graphs.x; IsFloat 4%float]
                       5 7) _ eq_refl))))).
  - exact (proj2 (apply_structure Add [IsFloat 4%float] 5 6)
             TypeError eq_refl).
Defined.

(** X14. [apply] never reuses an id.  When the nodes built so far have
    ids that determine them, all below the counter, and the [Scalar]
    arguments are among them, then after [apply] the same holds of these
    nodes together with the result and its new leaves; the result is none
    of the earlier nodes, and in its graph the id determines the node. *)
Theorem apply_fresh_ids (U : Scalar → Prop) (cls : ScalarFunction)
    (vals : list ScalarLike) (n n' : nat) (s : Scalar) :
  universe_ok U n →
  (∀ s0, IsScalar s0 ∈ vals → U s0) →
  apply cls vals n = (Ok s, n') →
  universe_ok (extended U s) n'
  ∧ n < n'
  ∧ ¬ U s
  ∧ unique_ids s.
Proof.
  intros HU Hvals Happly.
  destruct (apply_universe U cls vals n n' s HU Hvals Happly) as [HU' Hlt].
  split_and!; [done..| |].
  - intros Hs. destruct HU as (_ & Hbound & _). specialize (Hbound s Hs).
    apply apply_wraps_inv in Happly
      as (ss & fr & n1 & x & ctx' & (Hn & _)%wraps_fresh & _ & -> & ->).
    cbn in Hbound. lia.
  - eapply universe_unique_ids; [done|]. right. by left.
Qed.

Lemma apply_fresh_ids_witness :
  universe_ok (λ a, a = Graphs.x) 2
  ∧ (∀ s0, IsScalar s0 ∈ [IsScalar Graphs.x; IsScalar Graphs.x] →
           s0 = Graphs.x)
  ∧ apply Add [IsScalar Graphs.x; IsScalar Graphs.x] 2 = (Ok Graphs.y, 3)
  ∧ unique_ids Graphs.y.
Proof.
  assert (universe_ok (λ a, a = Graphs.x) 2) as HU.
  { split_and!.
    - by intros a b -> ->.
    - intros a ->. cbn. lia.
    - intros a p -> Hp. by apply elem_of_nil in Hp. }
  assert (∀ s0, IsScalar s0 ∈ [IsScalar Graphs.x; IsScalar Graphs.x] →
                s0 = Graphs.x) as Hvals.
  { intros s0 Hs0.
    repeat (apply elem_of_cons in Hs0 as [Heq|Hs0]; [by simplify_eq|]).
    by apply elem_of_nil in Hs0. }
  split_and!; [exact HU|exact Hvals|reflexivity|].
  exact (proj2 (proj2 (proj2
           (apply_fresh_ids _ Add _ 2 3 Graphs.y HU Hvals eq_refl)))).
Defined.

(** ** [central_difference]: indices and the zero step *)

(** X15. Indices and the zero step of [central_difference].  An index
    at or past the number of arguments, or below its negation, raises
    [IndexError] before [f] is called.  A negative index within range
    counts from the end: it gives what the index plus the number of
    arguments gives.  With an index within range, when [f] returns on
    both argument lists and [2 * epsilon] is zero, as for a step of 0.0,
    [ZeroDivisionError] is raised. *)
Theorem central_difference_index (f : list float → result float)
    (vals : list float) (arg : Z) (epsilon : float) :
  ((arg < - Z.of_nat (length vals) ∨ Z.of_nat (length vals) ≤ arg)%Z →
     central_difference f vals arg epsilon = Raise IndexError)
  ∧ ((- Z.of_nat (length vals) ≤ arg < 0)%Z →
       central_difference f vals arg epsilon
       = central_difference f vals (arg + Z.of_nat (length vals)) epsilon)
  ∧ ((- Z.of_nat (length vals) ≤ arg < Z.of_nat (length vals))%Z →
       PrimFloat.eqb (PrimFloat.mul 2%float epsilon) 0%float = true →
       ∀ e, central_difference f vals arg epsilon = Raise e →
            e = ZeroDivisionError
            ∨ ∃ l, length l = length vals ∧ f l = Raise e).
Proof.
  assert (∀ i : Z, (0 ≤ i < Z.of_nat (length vals))%Z →
            Py.index vals i = Ok (Z.to_nat i)) as Hin.
  { intros i Hi. unfold Py.index.
    rewrite (proj2 (Z.leb_le _ _)), (proj2 (Z.ltb_lt _ _)) by lia. done. }
  assert ((- Z.of_nat (length vals) ≤ arg < 0)%Z →
            Py.index vals arg = Ok (Z.to_nat (arg + Z.of_nat (length vals))))
    as Hneg.
  { intros Hi. unfold Py.index.
    rewrite (proj2 (Z.leb_gt _ _)) by lia. cbn.
    rewrite (proj2 (Z.ltb_lt _ _)), (proj2 (Z.leb_le _ _)) by lia. done. }
  split_and!.
  - intros Hout. unfold central_difference, Py.index.
    destruct Hout.
    + rewrite (proj2 (Z.leb_gt 0 arg)) by lia. cbn.
      rewrite (proj2 (Z.ltb_lt arg 0)) by lia. cbn.
      by rewrite (proj2 (Z.leb_gt _ _)) by lia.
    + rewrite (proj2 (Z.leb_le 0 arg)) by lia.
      rewrite (proj2 (Z.ltb_ge _ _)) by lia. cbn.
      by rewrite (proj2 (Z.ltb_ge arg 0)) by lia.
  - intros Hi. unfold central_difference.
    by rewrite (Hneg Hi), (Hin (arg + Z.of_nat (length vals))%Z) by lia.
  - intros Hi Heps e. unfold central_difference.
    assert (∃ i, Py.index vals arg = Ok i) as [i ->].
    { destruct (decide (arg < 0)%Z); [rewrite Hneg by lia|rewrite Hin by lia];
        by eexists. }
    cbn.
    destruct (f (alter (λ x, PrimFloat.add x epsilon) i vals))
      as [fp|e1] eqn:Hp; cbn.
    + destruct (f (alter (λ x, PrimFloat.sub x epsilon) i vals))
        as [fm|e2] eqn:Hm; cbn.
      * unfold Py.truediv, Py.two, Py.zero. rewrite Heps. intros [= <-]. by left.
      * intros [= <-]. right. eexists. split; [|done]. by rewrite length_alter.
    + intros [= <-]. right. eexists. split; [|done]. by rewrite length_alter.
Qed.

Lemma central_difference_index_witness :
  (- Z.of_nat (length [3%float; 4%float]) ≤ -1 < 0)%Z
  ∧ central_difference product [3%float; 4%float] (-1) 0.5%float
    = central_difference product [3%float; 4%float]
        (-1 + Z.of_nat (length [3%float; 4%float])) 0.5%float
  ∧ (Z.of_nat (length [3%float; 4%float]) ≤ 2)%Z
  ∧ central_difference product [3%float; 4%float] 2 0.5%float
    = Raise IndexError.
Proof.
  assert (- Z.of_nat (length [3%float; 4%float]) ≤ -1 < 0)%Z as Hneg
    by (cbn; lia).
  assert (Z.of_nat (length [3%float; 4%float]) ≤ 2)%Z as Hout by (cbn; lia).
  split; [exact Hneg|]. split; [|split; [exact Hout|]].
  - exact (proj1 (proj2 (central_difference_index product [3%float; 4%float]
                           (-1) 0.5%float)) Hneg).
  - exact (proj1 (central_difference_index product [3%float; 4%float]
                    2 0.5%float) (or_intror Hout)).
Defined.

(** ** [backpropagate]: a call adds a gradient *)

Lemma add_gradient_lookup (G H : gmap nat float) (i : nat) :
  add_gradient G H !! i
  = match H !! i, G !! i with
    | Some old, Some g => Some (PrimFloat.add old g)
    | Some old, None => Some old
    | None, og => og
    end.
Proof.
  unfold add_gradient. rewrite lookup_union_with.
  by destruct (H !! i), (G !! i).
Qed.

Lemma add_gradient_empty (H : gmap nat float) : add_gradient ∅ H = H.
Proof.
  apply map_eq. intros i. rewrite add_gradient_lookup, lookup_empty.
  by destruct (H !! i).
Qed.

Lemma add_gradient_accumulate (G H : gmap nat float) (v : Scalar) (g : float) :
  G !! unique_id v = None →
  add_gradient G (accumulate_derivative v g H)
  = add_gradient (<[unique_id v := g]> G) H.
Proof.
  intros HG. apply map_eq. intros i. rewrite !add_gradient_lookup.
  destruct (decide (unique_id v = i)) as [<-|Hne].
  - rewrite accumulate_derivative_lookup, HG, lookup_insert_eq.
    by destruct (H !! unique_id v).
  - by rewrite accumulate_derivative_frame, lookup_insert_ne.
Qed.

Lemma backprop_loop_adds (vars : list Scalar) (D H D' H' : gmap nat float) :
  NoDup (unique_id <$> vars) →
  backprop_loop vars (D, H) = Ok (D', H') →
  ∃ G : gmap nat float,
    dom G ⊆ ids vars
    ∧ (∀ i, i ∈ dom G → ∃ v, v ∈ vars ∧ is_leaf v = true ∧ unique_id v = i)
    ∧ ∀ H2, backprop_loop vars (D, H2) = Ok (D', add_gradient G H2).
Proof.
  revert D H. induction vars as [|var vars IH]; intros D H Hnd; cbn.
  - intros [= <- <-]. exists ∅. split_and!; [set_solver|set_solver|].
    intros H2. by rewrite add_gradient_empty.
  - rewrite fmap_cons in Hnd. apply NoDup_cons in Hnd as [Hvar Hnd].
    destruct (backprop_step (D, H) var) as [[D1 H1]|] eqn:Hstep; [|done]. cbn.
    intros Hloop. destruct (IH _ _ Hnd Hloop) as (G & Hdom & Hleaf & HG).
    apply backprop_step_inv in Hstep
      as (deriv & HD & [(Hl & -> & ->)|(Hl & -> & pairs & Hp & ->)]).
    + exists (<[unique_id var := deriv]> G). split_and!.
      * rewrite dom_insert_L, ids_cons. set_solver.
      * intros i [->%elem_of_singleton|Hi]%dom_insert%elem_of_union.
        -- exists var. split_and!; [left|done..].
        -- destruct (Hleaf i Hi) as (v & ? & ? & ?). exists v.
           split_and!; [by right|done..].
      * intros H2. rewrite (backprop_step_leaf var _ _ deriv) by done. cbn.
        rewrite HG. f_equal. f_equal. apply add_gradient_accumulate.
        apply not_elem_of_dom. intros Hin%Hdom%elem_of_ids.
        destruct Hin as (v & Hv & Hid). apply Hvar.
        rewrite <- Hid. by apply list_elem_of_fmap_2.
    + exists G. split_and!.
      * rewrite ids_cons. set_solver.
      * intros i Hi. destruct (Hleaf i Hi) as (v & ? & ? & ?). exists v.
        split_and!; [by right|done..].
      * intros H2. rewrite (backprop_step_node var _ _ deriv pairs) by done.
        cbn. by rewrite HG.
Qed.

(** X16. A call adds a gradient.  When [backpropagate] returns on one
    store it returns on every store, and there is one map [G] from ids of
    leaves of the order to derivatives, the same for every store, such
    that the call accumulates [G] into the store: it adds [G]'s derivative
    to the one an id holds, sets it where the id holds none, and leaves
    the other ids alone.  On an empty store the result is [G] itself. *)
Theorem backpropagate_adds_gradient (root : Scalar) (deriv : float)
    (store store' : gmap nat float) :
  backpropagate root deriv store = Ok store' →
  ∃ G : gmap nat float,
    (∀ i, i ∈ dom G →
          ∃ v, v ∈ topological_sort root ∧ is_leaf v = true ∧ unique_id v = i)
    ∧ (∀ store2,
         backpropagate root deriv store2 = Ok (add_gradient G store2))
    ∧ store' = add_gradient G store
    ∧ backpropagate root deriv ∅ = Ok G
    ∧ (∀ store2 i,
         add_gradient G store2 !! i
         = match store2 !! i, G !! i with
           | Some old, Some g => Some (PrimFloat.add old g)
           | Some old, None => Some old
           | None, og => og
           end).
Proof.
  intros (D & Hloop)%backpropagate_inv.
  assert (NoDup (unique_id <$> reverse (topological_sort root))) as Hnd.
  { rewrite fmap_reverse, reverse_Permutation.
    by destruct (topological_sort_visits root) as (N & -> & (_ & ? & _) & _). }
  destruct (backprop_loop_adds _ _ _ _ _ Hnd Hloop) as (G & _ & Hleaf & HG).
  assert (∀ store2, backpropagate root deriv store2 = Ok (add_gradient G store2))
    as Hall.
  { intros store2. unfold backpropagate. cbn. by rewrite HG. }
  exists G. split_and!.
  - intros i Hi. destruct (Hleaf i Hi) as (v & Hv & ? & ?).
    rewrite elem_of_reverse in Hv. by exists v.
  - done.
  - specialize (Hall store). unfold backpropagate in Hall. cbn in Hall.
    rewrite Hloop in Hall. cbn in Hall. by simplify_eq.
  - rewrite Hall. f_equal. apply map_eq. intros i.
    by rewrite add_gradient_lookup, lookup_empty.
  - intros store2 i. apply add_gradient_lookup.
Qed.

Lemma backpropagate_adds_gradient_witness :
  backpropagate Graphs.y 1%float ∅ = Ok {[1 := 2%float]}
  ∧ ∃ G : gmap nat float,
      backpropagate Graphs.y 1%float {[1 := 10%float]}
      = Ok (add_gradient G {[1 := 10%float]})
      ∧ backpropagate Graphs.y 1%float ∅ = Ok G.
Proof.
  assert (backpropagate Graphs.y 1%float ∅ = Ok {[1 := 2%float]}) as Hrun
    by (vm_compute; reflexivity).
  split; [exact Hrun|].
  destruct (backpropagate_adds_gradient Graphs.y 1%float ∅ _ Hrun)
    as (G & _ & Hall & _ & Hempty & _).
  exists G. split; [apply Hall|exact Hempty].
Defined.

Example y_backpropagate_twice :
  backpropagate Graphs.y 1%float {[1 := 10%float]} = Ok {[1 := 12%float]}.
Proof. vm_compute. reflexivity. Qed.
